(** * legid: self-authenticating short identifiers

    A shallow embedding of [src/index.ts] (the [createId] / [verifyId]
    pair, the base-62 codec, the random hex token and the interleaving
    loops) together with the properties its specification states.  The
    file holds two copies of the module; they differ in the default salt
    and in the second parameter of [verifyId].

    Modelling conventions
    - a JavaScript string is a [string], a sequence of code units (below
      256 here); every comparison the program makes is against the 62
      alphabet symbols or the hexadecimal digits, and [BigInt] skips the
      white space after a literal;
    - a [BigInt] is a [Z]; [/] and [%] on [BigInt] truncate towards zero,
      hence [Z.quot] and [Z.rem];
    - a [number] holding an integer is a [Z]; the one floating-point
      product of the program is modelled on binary64 significands;
    - an [async] call either resolves, rejects or does not come back:
      [Return], [Throw], [Diverge];
    - [crypto.getRandomValues] reads from a byte oracle, at most 65536
      bytes a call; the position in the oracle is threaded through the
      calls;
    - [crypto.subtle.digest('SHA-1', data)] is a parameter, instantiated
      with SHA-1 in the closed examples. *)

From Stdlib Require Import ZArith List Lia Bool Arith.
From Stdlib Require Import Zify ZifyNat.
From Stdlib Require Import Strings.Ascii Strings.String Strings.Byte.
Import ListNotations.

(** [lia] reasons about [/], [mod], [Z.quot] and [Z.rem] by a constant. *)
Ltac Zify.zify_post_hook ::= Z.to_euclidean_division_equations.

Local Open Scope string_scope.
Local Open Scope Z_scope.

(* ================================================================= *)
(** ** Outcomes of a call *)

Inductive error : Type :=
| Error (message : string)   (* [throw new Error(message)] *)
| SyntaxError                (* [BigInt] on a malformed literal *)
| TypeError                  (* destructuring [undefined] *)
| RangeError                 (* typed array of negative length *)
| QuotaExceededError.        (* more than 65536 random bytes in one call *)

Inductive outcome (A : Type) : Type :=
| Return (a : A)
| Throw (e : error)
| Diverge.                   (* the fuel of a loop ran out *)

Arguments Return {A} a.
Arguments Throw {A} e.
Arguments Diverge {A}.

Definition bind {A B : Type} (m : outcome A) (k : A -> outcome B) : outcome B :=
  match m with
  | Return a => k a
  | Throw e => Throw e
  | Diverge => Diverge
  end.

Notation "'let*' x ':=' m 'in' k" := (bind m (fun x => k))
  (at level 10, x pattern, m at level 100, k at level 200).

(** [try { body } catch (error) { return handler }] *)
Definition try_catch {A : Type} (body : outcome A) (handler : A) : outcome A :=
  match body with
  | Throw _ => Return handler
  | other => other
  end.

(* ================================================================= *)
(** ** JavaScript string primitives *)

Module JS.

(** [s[i]] used as an operand of [+]: a missing index is [undefined],
    which string concatenation spells out. *)
Definition index (s : string) (i : Z) : string :=
  if i <? 0 then "undefined"
  else match String.get (Z.to_nat i) s with
       | Some c => String c ""
       | None => "undefined"
       end.

(** [s.indexOf(c)] for a one-unit [c]: first position, or [-1]. *)
Fixpoint indexOf_from (s : string) (c : ascii) (i : Z) : Z :=
  match s with
  | EmptyString => -1
  | String d rest => if Ascii.eqb d c then i else indexOf_from rest c (i + 1)
  end.

Definition indexOf (s : string) (c : ascii) : Z := indexOf_from s c 0.

(** [s.substring(0, n)] *)
Fixpoint take (n : nat) (s : string) : string :=
  match n, s with
  | S n', String c rest => String c (take n' rest)
  | _, _ => ""
  end.

Definition substring0 (s : string) (n : Z) : string := take (Z.to_nat n) s.

(** [s.startsWith(p)] *)
Definition startsWith (s p : string) : bool := String.prefix p s.

(** [!s] on a string *)
Definition falsy (s : string) : bool :=
  match s with EmptyString => true | _ => false end.

Definition length (s : string) : Z := Z.of_nat (String.length s).

(** Value of a hexadecimal digit, either case. *)
Definition hex_value (c : ascii) : option Z :=
  let n := Z.of_N (N_of_ascii c) in
  if (48 <=? n) && (n <=? 57) then Some (n - 48)
  else if (97 <=? n) && (n <=? 102) then Some (n - 87)
  else if (65 <=? n) && (n <=? 70) then Some (n - 55)
  else None.

(** The white space and line terminators of a numeric string, among the
    code units below 256: TAB, LF, VT, FF, CR, SP and NBSP. *)
Definition is_white_space (c : ascii) : bool :=
  let n := Z.of_N (N_of_ascii c) in
  ((9 <=? n) && (n <=? 13)) || (n =? 32) || (n =? 160).

(** [s] without the white space at its end. *)
Fixpoint trim_end (s : string) : string :=
  match s with
  | EmptyString => EmptyString
  | String c rest =>
      match trim_end rest with
      | EmptyString => if is_white_space c then EmptyString else String c EmptyString
      | kept => String c kept
      end
  end.

(** The digits of a hexadecimal literal, folded most significant first. *)
Fixpoint parse_hex (acc : Z) (hex : string) : option Z :=
  match hex with
  | EmptyString => Some acc
  | String c rest =>
      match hex_value c with
      | Some d => parse_hex (acc * 16 + d) rest
      | None => None
      end
  end.

(** [BigInt('0x' + hex)]: white space at the end of the string is
    dropped (none can stand in front, where ['0x'] is), then at least one
    digit must be left and nothing but digits; anything else is a
    [SyntaxError]. *)
Definition BigInt_0x (hex : string) : outcome Z :=
  match trim_end hex with
  | EmptyString => Throw SyntaxError
  | digits => match parse_hex 0 digits with
              | Some v => Return v
              | None => Throw SyntaxError
              end
  end.

(** Lowercase hexadecimal digit of a value below 16. *)
Definition hex_digit (d : Z) : ascii :=
  if d <? 10 then ascii_of_N (Z.to_N (48 + d)) else ascii_of_N (Z.to_N (87 + d)).

(** Digits of a positive value, most significant first, in front of [acc]. *)
Fixpoint hex_digits (fuel : nat) (v : Z) (acc : string) : string :=
  match fuel with
  | O => acc
  | S fuel' =>
      if v <=? 0 then acc
      else hex_digits fuel' (Z.quot v 16) (String (hex_digit (Z.rem v 16)) acc)
  end.

(** [v.toString(16)] on a non-negative [BigInt]: no leading zero, ["0"]
    for zero.  A value has at most [log2 v + 1] digits. *)
Definition toString16 (v : Z) : string :=
  if v <=? 0 then "0"
  else hex_digits (S (Z.to_nat (Z.log2 v))) v "".

(** [byte.toString(16).padStart(2, '0')] *)
Definition byte_hex (b : byte) : string :=
  let n := Z.of_N (Byte.to_N b) in
  String (hex_digit (Z.quot n 16)) (String (hex_digit (Z.rem n 16)) "").

Definition byte_of_Z (z : Z) : byte :=
  match Byte.of_N (Z.to_N z) with Some b => b | None => x00 end.

(** [new TextEncoder().encode(text)]: UTF-8, for code units below 256. *)
Fixpoint TextEncoder_encode (text : string) : list byte :=
  match text with
  | EmptyString => []
  | String c rest =>
      let n := Z.of_N (N_of_ascii c) in
      (if n <? 128 then [byte_of_Z n]
       else [byte_of_Z (192 + n / 64); byte_of_Z (128 + n mod 64)])
      ++ TextEncoder_encode rest
  end.

(** [Math.ceil(n / 2)] on an integer [n] *)
Definition ceil_half (n : Z) : Z := - ((- n) / 2).

End JS.

(* ================================================================= *)
(** ** Configuration *)

Definition ALPHABET : string :=
  "abcdefghijklmnopqrstuvwxyzABCDEFGHIJKLMNOPQRSTUVWXYZ0123456789".

Definition DEFAULT_ID_LENGTH : Z := 10.

Definition MAX_ID_LENGTH : Z := 54.

(** [BigInt(ALPHABET.length)] *)
Definition base : Z := JS.length ALPHABET.

(* ================================================================= *)
(** ** Base conversion codec *)

(** The [do { ... } while (decimal > 0n)] of [hexToCustomAlphabet]. *)
Fixpoint hexToCustomAlphabet_loop (fuel : nat) (decimal : Z) (result : string)
  : outcome string :=
  match fuel with
  | O => Diverge
  | S fuel' =>
      let remainder := Z.rem decimal base in
      let result := JS.index ALPHABET remainder ++ result in
      let decimal := Z.quot decimal base in
      if 0 <? decimal then hexToCustomAlphabet_loop fuel' decimal result
      else Return result
  end.

(** Iterations granted to the loop: every pass divides by 62, so the bit
    length of the value is more than enough. *)
Definition loop_fuel (decimal : Z) : nat := S (Z.to_nat (Z.log2 decimal)).

Definition hexToCustomAlphabet (hex : string) : outcome string :=
  if JS.falsy hex then Return ""
  else
    let* decimal := JS.BigInt_0x hex in
    hexToCustomAlphabet_loop (loop_fuel decimal) decimal "".

(** The [for] loop of [customAlphabetToHex], from position [i] on. *)
Fixpoint customAlphabetToHex_loop (customStr : string) (decimal : Z) : outcome Z :=
  match customStr with
  | EmptyString => Return decimal
  | String char rest =>
      let index := JS.indexOf ALPHABET char in
      if index =? -1 then Throw (Error ("Invalid character: " ++ String char ""))
      else customAlphabetToHex_loop rest (decimal * base + index)
  end.

Definition customAlphabetToHex (customStr : string) : outcome string :=
  if JS.falsy customStr then Return ""
  else
    let* decimal := customAlphabetToHex_loop customStr 0 in
    Return (JS.toString16 decimal).

(* ================================================================= *)
(** ** Numbers *)

(** Positive binary64 values [m * 2^e] with [2^52 <= m < 2^53], rounded to
    nearest, ties to even.  The exponent range is not modelled: the
    values of this program stay far from its limits. *)
Module Binary64.

Definition float : Type := (Z * Z)%type.

(** Nearest integer to [num / den], ties to even. *)
Definition nearest_even (num den : Z) : Z :=
  let q := num / den in
  let r := num mod den in
  if 2 * r <? den then q
  else if den <? 2 * r then q + 1
  else if Z.even q then q else q + 1.

(** The binary64 nearest to the positive rational [num / den]. *)
Definition round (num den : Z) : float :=
  let e0 := Z.log2 num - Z.log2 den - 52 in
  let e := if num * 2 ^ Z.max 0 (- e0) <? den * 2 ^ Z.max 0 e0 * 2 ^ 52
           then e0 - 1 else e0 in
  let m := nearest_even (num * 2 ^ Z.max 0 (- e)) (den * 2 ^ Z.max 0 e) in
  if m =? 2 ^ 53 then (2 ^ 52, e + 1) else (m, e).

Definition of_int (n : Z) : float := round n 1.

Definition mul (x y : float) : float :=
  let '(m1, e1) := x in
  let '(m2, e2) := y in
  round (m1 * m2 * 2 ^ Z.max 0 (e1 + e2)) (2 ^ Z.max 0 (- (e1 + e2))).

(** [Math.floor] and [Math.ceil] of a positive value *)
Definition floor (x : float) : Z :=
  let '(m, e) := x in
  if 0 <=? e then m * 2 ^ e else m / 2 ^ (- e).

Definition ceil (x : float) : Z :=
  let '(m, e) := x in
  if 0 <=? e then m * 2 ^ e else - ((- m) / 2 ^ (- e)).

End Binary64.

(** The literal [1.48855] *)
Definition HEX_TO_ALPHABET_RATIO : Binary64.float := Binary64.round 148855 100000.

(** [Math.floor(alphabetLength * HEX_TO_ALPHABET_RATIO)] on an integer
    argument; the product of a negative argument is the opposite of the
    product of its absolute value. *)
Definition calculateHexLength (alphabetLength : Z) : Z :=
  if alphabetLength =? 0 then 0
  else if 0 <? alphabetLength then
    Binary64.floor (Binary64.mul (Binary64.of_int alphabetLength) HEX_TO_ALPHABET_RATIO)
  else
    - Binary64.ceil (Binary64.mul (Binary64.of_int (- alphabetLength)) HEX_TO_ALPHABET_RATIO).

(* ================================================================= *)
(** ** Entropy source *)

(** The secure random source: the bytes it will hand out, in order. *)
Definition oracle : Type := nat -> byte.

(** [crypto.getRandomValues(array)] overwrites the whole array with the
    next bytes of the source; an array of more than 65536 bytes is
    refused with a [QuotaExceededError]. *)
Definition getRandomValues (random : oracle) (pos : nat) (array : list byte)
  : outcome (list byte * nat) :=
  if 65536 <? Z.of_nat (List.length array) then Throw QuotaExceededError
  else Return (map random (seq pos (List.length array)), (pos + List.length array)%nat).

(** [array[0] < 16]; on an empty array [undefined < 16] is false. *)
Definition first_below_16 (array : list byte) : bool :=
  match array with
  | [] => false
  | b :: _ => Z.of_N (Byte.to_N b) <? 16
  end.

(** [while (array[0] < 16) crypto.getRandomValues(array)] *)
Fixpoint reroll (random : oracle) (fuel : nat) (array : list byte) (pos : nat)
  : outcome (list byte * nat) :=
  if first_below_16 array then
    match fuel with
    | O => Diverge
    | S fuel' =>
        let* (array, pos) := getRandomValues random pos array in
        reroll random fuel' array pos
    end
  else Return (array, pos).

(** [Array.from(array, byte => ...).join('')] *)
Definition bytes_hex (array : list byte) : string :=
  fold_right (fun b s => JS.byte_hex b ++ s) "" array.

(** [arrayBufferToHex(buffer)]: the same rendering, on the bytes of the
    buffer. *)
Definition arrayBufferToHex (buffer : list byte) : string :=
  let byteArray := buffer in
  bytes_hex byteArray.

(** [generateRandomHexToken(length)], reading the source from [pos] on.
    [new Uint8Array(n)] throws a [RangeError] on a negative [n]; how
    large an array an engine is able to allocate is not modelled. *)
Definition generateRandomHexToken (random : oracle) (fuel : nat) (length : Z) (pos : nat)
  : outcome (string * nat) :=
  let byteCount := JS.ceil_half length in
  if byteCount <? 0 then Throw RangeError
  else
    let array := repeat x00 (Z.to_nat byteCount) in
    let* (array, pos) := getRandomValues random pos array in
    let* (array, pos) := reroll random fuel array pos in
    let hex := bytes_hex array in
    Return (JS.substring0 hex length, pos).

(* ================================================================= *)
(** ** Interleaving *)

(** The [for (let i = 0; i < hexLength; i++)] of [createId], with [n]
    iterations left. *)
Fixpoint interleave_loop (n : nat) (i : Z) (hexToken hexHash hexId : string) : string :=
  match n with
  | O => hexId
  | S n' =>
      let hexId :=
        if negb (Z.rem i 2 =? 0) then hexId ++ JS.index hexHash (Z.shiftr i 1)
        else hexId ++ JS.index hexToken (Z.shiftr i 1) in
      interleave_loop n' (i + 1) hexToken hexHash hexId
  end.

Definition interleave (hexToken hexHash : string) (hexLength : Z) : string :=
  interleave_loop (Z.to_nat hexLength) 0 hexToken hexHash "".

(** The [for (let i = 0; i < hexId.length; i++)] of [verifyId]; [hexId]
    is what is left of the string from position [i] on. *)
Fixpoint split_loop (hexId : string) (i : Z) (extractedHexToken extractedHexHash : string)
  : string * string :=
  match hexId with
  | EmptyString => (extractedHexToken, extractedHexHash)
  | String c rest =>
      if negb (Z.rem i 2 =? 0)
      then split_loop rest (i + 1) extractedHexToken (extractedHexHash ++ String c "")
      else split_loop rest (i + 1) (extractedHexToken ++ String c "") extractedHexHash
  end.

Definition split (hexId : string) : string * string := split_loop hexId 0 "" "".

(* ================================================================= *)
(** ** Generate / verify *)

Record CreateOptions : Type := {
  approximateLength : option Z;
  create_salt : option string
}.

Record VerifyOptions : Type := {
  verify_salt : option string
}.

(** A destructured property that is missing takes its default. *)
Definition default {A : Type} (d : A) (o : option A) : A :=
  match o with Some a => a | None => d end.

(** The local variables of [createId] when it reaches its last line;
    [tokenLength] names the argument [(hexLength + 1) >> 1] of
    [generateRandomHexToken], [position] is where the random source
    stands. *)
Record CreateLocals : Type := {
  hexLength : Z;
  tokenLength : Z;
  hexToken : string;
  hexHash : string;
  hexId : string;
  position : nat
}.

Section Facade.

(** [crypto.subtle.digest('SHA-1', data)] *)
Variable digest : list byte -> list byte.

(** [sha1(text)] *)
Definition sha1 (text : string) : string :=
  let data := JS.TextEncoder_encode text in
  let hashBuffer := digest data in
  arrayBufferToHex hashBuffer.

Variable random : oracle.

(** The default salt differs between the two copies of the module. *)
Variable SALT : string.

Definition createId_locals (fuel : nat) (approximateLength : Z) (salt : string) (pos : nat)
  : outcome CreateLocals :=
  if approximateLength <=? 0 then
    Throw (Error "ID length must be a positive integer")
  else if approximateLength >? MAX_ID_LENGTH then
    Throw (Error "ID length exceeds maximum of 54 characters")
  else
    let hexLength := calculateHexLength approximateLength in
    let tokenLength := Z.shiftr (hexLength + 1) 1 in
    let* (hexToken, pos) := generateRandomHexToken random fuel tokenLength pos in
    let hexHash := sha1 (salt ++ hexToken) in
    let hexId := interleave hexToken hexHash hexLength in
    Return {| hexLength := hexLength; tokenLength := tokenLength;
              hexToken := hexToken; hexHash := hexHash; hexId := hexId;
              position := pos |}.

(** [createId({ approximateLength = DEFAULT_ID_LENGTH, salt = SALT } = {})];
    the result comes with the position reached in the random source. *)
Definition createId (fuel : nat) (options : option CreateOptions) (pos : nat)
  : outcome (string * nat) :=
  let options := default {| approximateLength := None; create_salt := None |} options in
  let approximateLength := default DEFAULT_ID_LENGTH options.(approximateLength) in
  let salt := default SALT options.(create_salt) in
  let* locals := createId_locals fuel approximateLength salt pos in
  let* id := hexToCustomAlphabet locals.(hexId) in
  Return (id, locals.(position)).

(** The body of [verifyId], once [salt] is bound. *)
Definition verifyId_body (id : string) (salt : string) : outcome bool :=
  if JS.falsy id || (JS.length id >? MAX_ID_LENGTH) then Return false
  else
    try_catch
      (let* hexId := customAlphabetToHex id in
       let '(extractedHexToken, extractedHexHash) := split hexId in
       if JS.length extractedHexHash =? 0 then Return false
       else
         let expectedHexValue := sha1 (salt ++ extractedHexToken) in
         Return (JS.startsWith expectedHexValue extractedHexHash))
      false.

(** [verifyId(id, { salt = SALT })]  (first copy): destructuring a
    missing second argument is a [TypeError]. *)
Definition verifyId (id : string) (options : option VerifyOptions) : outcome bool :=
  match options with
  | None => Throw TypeError
  | Some options => verifyId_body id (default SALT options.(verify_salt))
  end.

(** [verifyId(id, { salt = SALT } = {})]  (second copy) *)
Definition verifyId_defaulted (id : string) (options : option VerifyOptions) : outcome bool :=
  let options := default {| verify_salt := None |} options in
  verifyId_body id (default SALT options.(verify_salt)).

End Facade.

(** The two copies of the module in the repository: they differ in the
    default salt and in the second parameter of [verifyId]. *)
Module Legitid.

Definition SALT : string := "legitid:".

Definition createId (digest : list byte -> list byte) (random : oracle) :=
  createId digest random SALT.

Definition verifyId (digest : list byte -> list byte) := verifyId digest SALT.

End Legitid.

Module Legid.

Definition SALT : string := "legid:".

Definition createId (digest : list byte -> list byte) (random : oracle) :=
  createId digest random SALT.

Definition verifyId (digest : list byte -> list byte) := verifyId_defaulted digest SALT.

End Legid.

(* ================================================================= *)
(** ** Instances of the parameters *)

(** SHA-1 (FIPS 180-4), what [crypto.subtle.digest('SHA-1', data)]
    computes.  It instantiates the [digest] parameter in closed
    examples. *)
Module SHA1.

Definition w32 (x : Z) : Z := x mod 2 ^ 32.

Definition rotl (n x : Z) : Z := w32 (Z.lor (Z.shiftl x n) (Z.shiftr x (32 - n))).

(** Big-endian bytes of [x], [n] of them. *)
Fixpoint be_bytes (n : nat) (x : Z) : list Z :=
  match n with
  | O => []
  | S n' => (x / 256 ^ Z.of_nat n') mod 256 :: be_bytes n' x
  end.

Definition pad (message : list Z) : list Z :=
  let len := Z.of_nat (List.length message) in
  let zeros := Z.to_nat ((55 - len) mod 64) in
  message ++ [128] ++ repeat 0 zeros ++ be_bytes 8 (8 * len).

Fixpoint be_words (n : nat) (bytes : list Z) : list Z :=
  match n, bytes with
  | S n', b0 :: b1 :: b2 :: b3 :: rest =>
      (((b0 * 256 + b1) * 256 + b2) * 256 + b3) :: be_words n' rest
  | _, _ => []
  end.

(** The message schedule, latest word first. *)
Fixpoint schedule (n : nat) (ws : list Z) : list Z :=
  match n with
  | O => ws
  | S n' =>
      let w := rotl 1 (Z.lxor (Z.lxor (nth 2 ws 0) (nth 7 ws 0))
                              (Z.lxor (nth 13 ws 0) (nth 15 ws 0))) in
      schedule n' (w :: ws)
  end.

Definition state : Type := (Z * Z * Z * Z * Z)%type.

Definition f (t : nat) (b c d : Z) : Z :=
  if (t <? 20)%nat then Z.lor (Z.land b c) (Z.land (Z.lxor b (2 ^ 32 - 1)) d)
  else if (t <? 40)%nat then Z.lxor (Z.lxor b c) d
  else if (t <? 60)%nat then Z.lor (Z.lor (Z.land b c) (Z.land b d)) (Z.land c d)
  else Z.lxor (Z.lxor b c) d.

Definition k (t : nat) : Z :=
  if (t <? 20)%nat then 0x5a827999
  else if (t <? 40)%nat then 0x6ed9eba1
  else if (t <? 60)%nat then 0x8f1bbcdc
  else 0xca62c1d6.

Fixpoint rounds (ws : list Z) (t : nat) (s : state) : state :=
  match ws with
  | [] => s
  | w :: ws' =>
      let '(a, b, c, d, e) := s in
      let temp := w32 (rotl 5 a + f t b c d + e + k t + w) in
      rounds ws' (S t) (temp, a, rotl 30 b, c, d)
  end.

Definition compress (h : state) (block : list Z) : state :=
  let ws := rev (schedule 64 (rev (be_words 16 block))) in
  let '(h0, h1, h2, h3, h4) := h in
  let '(a, b, c, d, e) := rounds ws 0 h in
  (w32 (h0 + a), w32 (h1 + b), w32 (h2 + c), w32 (h3 + d), w32 (h4 + e)).

Fixpoint blocks (n : nat) (h : state) (bytes : list Z) : state :=
  match n with
  | O => h
  | S n' => blocks n' (compress h (firstn 64 bytes)) (skipn 64 bytes)
  end.

Definition initial : state :=
  (0x67452301, 0xefcdab89, 0x98badcfe, 0x10325476, 0xc3d2e1f0).

Definition digest (data : list byte) : list byte :=
  let bytes := pad (map (fun b => Z.of_N (Byte.to_N b)) data) in
  let '(h0, h1, h2, h3, h4) := blocks (List.length bytes / 64) initial bytes in
  map JS.byte_of_Z
    (be_bytes 4 h0 ++ be_bytes 4 h1 ++ be_bytes 4 h2 ++ be_bytes 4 h3 ++ be_bytes 4 h4).

End SHA1.

(** A byte source for closed examples; its first byte is below 16, so
    that the first buffer asked from position 0 is drawn again. *)
Definition sample_source : oracle :=
  fun i => match Byte.of_N (N.of_nat ((i * 73 + 10) mod 256)) with
           | Some b => b
           | None => x00
           end.

(* ================================================================= *)
(** ** Vocabulary of the properties *)

Fixpoint all_chars (p : ascii -> bool) (s : string) : bool :=
  match s with
  | EmptyString => true
  | String c rest => p c && all_chars p rest
  end.

(** A digit [0-9a-f] *)
Definition lower_hex_char (c : ascii) : bool :=
  let n := Z.of_N (N_of_ascii c) in
  ((48 <=? n) && (n <=? 57)) || ((97 <=? n) && (n <=? 102)).

(** A digit [0-9a-fA-F] *)
Definition hex_char (c : ascii) : bool :=
  match JS.hex_value c with Some _ => true | None => false end.

Definition in_alphabet (c : ascii) : bool := negb (JS.indexOf ALPHABET c =? -1).

Definition lower_hex (s : string) : Prop := all_chars lower_hex_char s = true.

Definition any_hex (s : string) : Prop := all_chars hex_char s = true.

(** No digit [0] in front (the empty string has none). *)
Definition no_leading_zero (s : string) : Prop :=
  match s with
  | String c _ => c <> "0"%char
  | EmptyString => True
  end.

(** The unsigned integer a digit string denotes; the empty string denotes
    zero. *)
Definition hex_denotes (s : string) (v : Z) : Prop := JS.parse_hex 0 s = Some v.

(** Leading zero digits removed. *)
Fixpoint strip_zeros (s : string) : string :=
  match s with
  | String c rest => if Ascii.eqb c "0" then strip_zeros rest else s
  | EmptyString => EmptyString
  end.

(** The digits of [h] without its leading zeros, ["0"] when nothing is left. *)
Definition canonical_hex (h : string) : string :=
  match strip_zeros h with
  | EmptyString => "0"
  | s => s
  end.

(** A digit [A-F] turned into [a-f]; other characters are kept. *)
Definition lowercase_char (c : ascii) : ascii :=
  let n := Z.of_N (N_of_ascii c) in
  if (65 <=? n) && (n <=? 70) then ascii_of_N (Z.to_N (n + 32)) else c.

Fixpoint lowercase (s : string) : string :=
  match s with
  | EmptyString => EmptyString
  | String c rest => String (lowercase_char c) (lowercase rest)
  end.

(** Encoding then decoding. *)
Definition codec_round_trip (hex : string) : outcome string :=
  let* custom := hexToCustomAlphabet hex in customAlphabetToHex custom.

(** [s] is read by the decoding loop as the digits of [v]. *)
Definition encodes (s : string) (v : Z) : Prop :=
  forall rest d,
    customAlphabetToHex_loop (s ++ rest) d
    = customAlphabetToHex_loop rest (d * base ^ Z.of_nat (String.length s) + v).

(** What one pass of the loop appends at position [i]. *)
Definition piece (hexToken hexHash : string) (i : Z) : string :=
  if negb (Z.rem i 2 =? 0) then JS.index hexHash (Z.shiftr i 1)
  else JS.index hexToken (Z.shiftr i 1).

(** The characters of [s] at every other position, starting with the
    first one when [keep] holds. *)
Fixpoint pick (keep : bool) (s : string) : string :=
  match s with
  | EmptyString => EmptyString
  | String c rest => if keep then String c (pick (negb keep) rest) else pick (negb keep) rest
  end.

(** The [k]-th buffer of [len] bytes the source hands out from [pos] on. *)
Definition draw (random : oracle) (pos len k : nat) : list byte :=
  map random (seq (pos + k * len) len).

(** The source ends the re-roll loop: some buffer starts with a byte that
    is not below 16. *)
Definition rerolls_end (random : oracle) (pos len : nat) : Prop :=
  exists k, first_below_16 (draw random pos len k) = false.

(** Bytes asked from the source for a given [approximateLength]. *)
Definition token_bytes (approximateLength : Z) : nat :=
  Z.to_nat (JS.ceil_half (Z.shiftr (calculateHexLength approximateLength + 1) 1)).

(** SHA-1 digests have 160 bits. *)
Definition digest_160 (digest : list byte -> list byte) : Prop :=
  forall data, List.length (digest data) = 20%nat.

(** The two messages of [createId] about its length argument. *)
Definition InvalidLength (e : error) : Prop :=
  e = Error "ID length must be a positive integer"
  \/ e = Error "ID length exceeds maximum of 54 characters".

(** The message of [customAlphabetToHex] about a symbol. *)
Definition InvalidCharacter (e : error) : Prop :=
  exists c, e = Error ("Invalid character: " ++ String c "").

(** What holds of the local variables of a [createId] that got past its
    two guards. *)
Definition created (digest : list byte -> list byte) (n : Z) (salt : string) (l : CreateLocals)
  : Prop :=
  hexLength l = calculateHexLength n
  /\ tokenLength l = Z.shiftr (hexLength l + 1) 1
  /\ JS.length (hexToken l) = tokenLength l
  /\ lower_hex (hexToken l) /\ no_leading_zero (hexToken l)
  /\ hexHash l = sha1 digest (salt ++ hexToken l)
  /\ hexId l = interleave (hexToken l) (hexHash l) (hexLength l).

(** The first symbol of [s] that is not in the alphabet, if any. *)
Fixpoint first_outside (s : string) : option ascii :=
  match s with
  | EmptyString => None
  | String c rest => if in_alphabet c then first_outside rest else Some c
  end.

(** An identifier as the encoder writes it: not empty, and without the
    zero symbol ['a'] in front unless it is ["a"] itself. *)
Definition canonical_id (s : string) : Prop :=
  match s with
  | EmptyString => False
  | String c rest => c <> "a"%char \/ rest = EmptyString
  end.

(** [k] times the zero symbol of the alphabet. *)
Fixpoint zero_symbols (k : nat) : string :=
  match k with
  | O => EmptyString
  | S k' => String "a" (zero_symbols k')
  end.

(** The unsigned integer whose big-endian bytes are [bytes]. *)
Definition be_value (bytes : list byte) : Z :=
  fold_left (fun acc b => acc * 256 + Z.of_N (Byte.to_N b)) bytes 0.

(** Rank of a symbol of the alphabet, read off its code unit: the
    lowercase letters are 0 to 25, the capitals 26 to 51, the digits 52
    to 61. *)
Definition symbol_rank (c : ascii) : option Z :=
  let n := Z.of_N (N_of_ascii c) in
  if (97 <=? n) && (n <=? 122) then Some (n - 97)
  else if (65 <=? n) && (n <=? 90) then Some (n - 39)
  else if (48 <=? n) && (n <=? 57) then Some (n + 4)
  else None.

(** The number a string over the alphabet writes in base 62: each symbol
    counts its rank times the power of 62 of its place, the last symbol
    having place 0. *)
Fixpoint id_value (s : string) : option Z :=
  match s with
  | EmptyString => Some 0
  | String c rest =>
      match symbol_rank c, id_value rest with
      | Some r, Some v => Some (r * 62 ^ Z.of_nat (String.length rest) + v)
      | _, _ => None
      end
  end.

(** Nothing but white space. *)
Definition white_space (s : string) : Prop := all_chars JS.is_white_space s = true.

(* ================================================================= *)
(** ** Small evaluations *)

Example ex_h2a_1 : hexToCustomAlphabet "ff" = Return "eh".
Proof. reflexivity. Qed.

Example ex_a2h_1 : customAlphabetToHex "eh" = Return "ff".
Proof. reflexivity. Qed.

Example ex_h2a_0 : hexToCustomAlphabet "000" = Return "a".
Proof. reflexivity. Qed.

Example ex_a2h_0 : customAlphabetToHex "a" = Return "0".
Proof. reflexivity. Qed.

Example ex_a2h_bad : customAlphabetToHex "a@" = Throw (Error "Invalid character: @").
Proof. reflexivity. Qed.

Example ex_h2a_upper : hexToCustomAlphabet "FF" = Return "eh".
Proof. reflexivity. Qed.

Example ex_empty : hexToCustomAlphabet "" = Return "" /\ customAlphabetToHex "" = Return "".
Proof. split; reflexivity. Qed.

(** [BigInt] skips white space after the digits, and only there. *)
Example ex_h2a_white_space :
  hexToCustomAlphabet "ff " = Return "eh"
  /\ hexToCustomAlphabet ("ff" ++ String (ascii_of_nat 10) "") = Return "eh"
  /\ hexToCustomAlphabet " ff" = Throw SyntaxError
  /\ hexToCustomAlphabet "f f" = Throw SyntaxError
  /\ hexToCustomAlphabet " " = Throw SyntaxError
  /\ hexToCustomAlphabet "0x1g" = Throw SyntaxError.
Proof. repeat split; reflexivity. Qed.

Example ex_id_value : id_value "eh" = Some 255 /\ id_value "a@" = None.
Proof. split; reflexivity. Qed.

Example ex_getRandomValues :
  getRandomValues sample_source 3%nat [x00; x00]
  = Return ([sample_source 3%nat; sample_source 4%nat], 5%nat)
  /\ getRandomValues sample_source 3%nat (repeat x00 (Z.to_nat 65537))
     = Throw QuotaExceededError.
Proof. split; vm_compute; reflexivity. Qed.

Example ex_calculateHexLength :
  map calculateHexLength [1; 2; 3; 10; 54] = [1; 2; 4; 14; 80].
Proof. vm_compute. reflexivity. Qed.

Example sha1_abc : sha1 SHA1.digest "abc" = "a9993e364706816aba3e25717850c26c9cd0d89d".
Proof. vm_compute. reflexivity. Qed.

Example sha1_empty : sha1 SHA1.digest "" = "da39a3ee5e6b4b0d3255bfef95601890afd80709".
Proof. vm_compute. reflexivity. Qed.

Example sha1_two_blocks :
  sha1 SHA1.digest "abcdbcdecdefdefgefghfghighijhijkijkljklmklmnlmnomnopnopq"
  = "84983e441c3bd26ebaae4aa1f95129e5e54670f1".
Proof. vm_compute. reflexivity. Qed.

Example generateRandomHexToken_sample :
  generateRandomHexToken sample_source 0 7 0 = Diverge
  /\ generateRandomHexToken sample_source 1 7 0 = Return ("2e77c00", 8%nat).
Proof. split; vm_compute; reflexivity. Qed.

Example verifyId_malformed :
  Legid.verifyId SHA1.digest "" None = Return false
  /\ Legid.verifyId SHA1.digest "a" None = Return false
  /\ Legid.verifyId SHA1.digest "contains@#$" None = Return false
  /\ Legitid.verifyId SHA1.digest "contains@#$" (Some {| verify_salt := None |}) = Return false.
Proof. repeat split; vm_compute; reflexivity. Qed.

Example createId_default :
  Legitid.createId SHA1.digest sample_source 1 None 0 = Return ("19UcZlEmt", 8%nat)
  /\ Legitid.verifyId SHA1.digest "19UcZlEmt" (Some {| verify_salt := None |}) = Return true
  /\ Legid.verifyId SHA1.digest "19UcZlEmt" None = Return false.
Proof. repeat split; vm_compute; reflexivity. Qed.

(* ================================================================= *)
(** ** Finite checks *)

(** A run that returns from [m] units of fuel on, at [fuel >= m]. *)
Ltac enough_fuel Hrun Hfuel :=
  rewrite Hrun; apply Nat.leb_le in Hfuel; rewrite Hfuel; reflexivity.

Lemma below_forallb (P : Z -> bool) (n : nat) :
  forallb P (map Z.of_nat (seq 0 n)) = true ->
  forall z, 0 <= z < Z.of_nat n -> P z = true.
Proof.
  intros H z Hz.
  rewrite forallb_forall in H. apply H.
  apply in_map_iff. exists (Z.to_nat z). split; [lia|].
  apply in_seq. lia.
Qed.

Lemma alphabet_symbol (r : Z) :
  0 <= r < 62 ->
  exists c, JS.index ALPHABET r = String c "" /\ JS.indexOf ALPHABET c = r.
Proof.
  intros Hr.
  pose (P := fun r => match JS.index ALPHABET r with
                      | String c EmptyString => JS.indexOf ALPHABET c =? r
                      | _ => false
                      end).
  assert (HP : P r = true) by (apply (below_forallb P 62); [vm_compute; reflexivity | lia]).
  unfold P in HP.
  destruct (JS.index ALPHABET r) as [|c [|]]; try discriminate.
  exists c. split; [reflexivity | now apply Z.eqb_eq].
Qed.

Lemma hex_digit_value (d : Z) :
  0 <= d < 16 ->
  JS.hex_value (JS.hex_digit d) = Some d /\ lower_hex_char (JS.hex_digit d) = true
  /\ (JS.hex_digit d = "0"%char -> d = 0).
Proof.
  intros Hd.
  pose (P := fun d => match JS.hex_value (JS.hex_digit d) with
                      | Some e => (e =? d) && lower_hex_char (JS.hex_digit d)
                                  && (negb (Ascii.eqb (JS.hex_digit d) "0") || (d =? 0))
                      | None => false
                      end).
  assert (HP : P d = true) by (apply (below_forallb P 16); [vm_compute; reflexivity | lia]).
  unfold P in HP.
  destruct (JS.hex_value (JS.hex_digit d)) as [e|]; [|discriminate].
  apply andb_true_iff in HP as [HP H0]. apply andb_true_iff in HP as [He Hl].
  apply Z.eqb_eq in He. subst e. repeat split; trivial.
  intros Hz. rewrite Hz in H0. simpl in H0. now apply Z.eqb_eq.
Qed.

Lemma lower_hex_char_value (c : ascii) :
  lower_hex_char c = true ->
  exists d, JS.hex_value c = Some d /\ 0 <= d < 16 /\ JS.hex_digit d = c
            /\ (d = 0 -> c = "0"%char).
Proof.
  destruct c as [b0 b1 b2 b3 b4 b5 b6 b7].
  destruct b0, b1, b2, b3, b4, b5, b6, b7; intros H; vm_compute in H; try discriminate H;
    eexists; (split; [vm_compute; reflexivity|]); (split; [lia|]);
    (split; [reflexivity|]); intros E; try discriminate E; reflexivity.
Qed.

Lemma hex_char_value (c : ascii) :
  hex_char c = true -> exists d, JS.hex_value c = Some d /\ 0 <= d < 16.
Proof.
  destruct c as [b0 b1 b2 b3 b4 b5 b6 b7].
  destruct b0, b1, b2, b3, b4, b5, b6, b7; intros H; vm_compute in H; try discriminate H;
    eexists; (split; [vm_compute; reflexivity|]); lia.
Qed.

Lemma lower_hex_char_hex (c : ascii) : lower_hex_char c = true -> hex_char c = true.
Proof.
  intros H. destruct (lower_hex_char_value c H) as (d & Hd & _).
  unfold hex_char. now rewrite Hd.
Qed.

Lemma lowercase_char_spec (c : ascii) :
  hex_char c = true ->
  lower_hex_char (lowercase_char c) = true
  /\ JS.hex_value (lowercase_char c) = JS.hex_value c.
Proof.
  destruct c as [b0 b1 b2 b3 b4 b5 b6 b7].
  destruct b0, b1, b2, b3, b4, b5, b6, b7; intros H; vm_compute in H; try discriminate H;
    split; reflexivity.
Qed.

Lemma lowercase_char_lower (c : ascii) :
  lower_hex_char c = true -> lowercase_char c = c.
Proof.
  destruct c as [b0 b1 b2 b3 b4 b5 b6 b7].
  destruct b0, b1, b2, b3, b4, b5, b6, b7; intros H; vm_compute in H; try discriminate H;
    reflexivity.
Qed.

Lemma byte_hex_spec (b : byte) :
  exists c1 c2,
    JS.byte_hex b = String c1 (String c2 "")
    /\ lower_hex_char c1 = true /\ lower_hex_char c2 = true
    /\ (first_below_16 [b] = false -> c1 <> "0"%char).
Proof.
  destruct b; do 2 eexists; (split; [reflexivity|]); (split; [reflexivity|]);
    (split; [reflexivity|]); intros H; vm_compute in H; try discriminate H;
    intros E; discriminate E.
Qed.

(* ================================================================= *)
(** ** Strings *)

Lemma str_app_assoc (a b c : string) : (a ++ b) ++ c = a ++ (b ++ c).
Proof. induction a; simpl; congruence. Qed.

Lemma str_app_nil_r (a : string) : a ++ "" = a.
Proof. induction a; simpl; congruence. Qed.

Lemma str_length_app (a b : string) :
  String.length (a ++ b) = (String.length a + String.length b)%nat.
Proof. induction a; simpl; congruence. Qed.

Lemma all_chars_app (p : ascii -> bool) (a b : string) :
  all_chars p (a ++ b) = all_chars p a && all_chars p b.
Proof. induction a; simpl; [reflexivity | rewrite IHa; apply andb_assoc]. Qed.

Lemma all_chars_weaken (p q : ascii -> bool) (s : string) :
  (forall c, p c = true -> q c = true) -> all_chars p s = true -> all_chars q s = true.
Proof.
  intros Hpq. induction s; simpl; [trivial|].
  intros H. apply andb_true_iff in H as [H1 H2].
  rewrite (Hpq _ H1), (IHs H2). reflexivity.
Qed.

Lemma lower_hex_any (s : string) : lower_hex s -> any_hex s.
Proof. apply all_chars_weaken, lower_hex_char_hex. Qed.

Lemma all_chars_get (p : ascii -> bool) (s : string) :
  all_chars p s = true <-> forall j c, String.get j s = Some c -> p c = true.
Proof.
  induction s as [|c s IH]; cbn [all_chars].
  - split; [intros _ j c0 H; destruct j; discriminate H | reflexivity].
  - rewrite andb_true_iff, IH. split.
    + intros [Hc Hs] [|j] c0 H; cbn in H; [injection H as <-; exact Hc | eauto].
    + intros H. split; [apply (H 0%nat); reflexivity | intros j c0 H0; apply (H (S j)); exact H0].
Qed.

Lemma get_lt (s : string) : forall j, (j < String.length s)%nat -> exists c, String.get j s = Some c.
Proof.
  induction s as [|c s IH]; intros j Hj; cbn in Hj; [lia|].
  destruct j as [|j]; cbn; [eauto | apply IH; lia].
Qed.

Lemma get_ge (s : string) : forall j, (String.length s <= j)%nat -> String.get j s = None.
Proof.
  induction s as [|c s IH]; intros j Hj; cbn in Hj; [reflexivity|].
  destruct j as [|j]; cbn; [lia | apply IH; lia].
Qed.

Lemma get_app_l (a b : string) (j : nat) :
  (j < String.length a)%nat -> String.get j (a ++ b) = String.get j a.
Proof. intros H. symmetry. now apply append_correct1. Qed.

Lemma get_app_r (a b : string) (j : nat) :
  (String.length a <= j)%nat -> String.get j (a ++ b) = String.get (j - String.length a) b.
Proof.
  intros H. rewrite (append_correct2 a b (j - String.length a)).
  f_equal. lia.
Qed.

Lemma get_ext_length (a b : string) :
  String.length a = String.length b ->
  (forall j, (j < String.length a)%nat -> String.get j a = String.get j b) ->
  a = b.
Proof.
  intros Hl H. apply get_correct. intros j.
  destruct (Nat.lt_ge_cases j (String.length a)) as [Hj|Hj]; [now apply H|].
  rewrite !get_ge; trivial. lia.
Qed.

Lemma take_length (s : string) :
  forall n, String.length (JS.take n s) = Nat.min n (String.length s).
Proof.
  induction s as [|c s IH]; intros [|n]; cbn; trivial. now rewrite IH.
Qed.

Lemma take_get (s : string) :
  forall n j, (j < n)%nat -> String.get j (JS.take n s) = String.get j s.
Proof.
  induction s as [|c s IH]; intros [|n] j Hj; cbn; trivial; [lia|].
  destruct j; [reflexivity | apply IH; lia].
Qed.

Lemma take_all (s : string) : forall n, (String.length s <= n)%nat -> JS.take n s = s.
Proof.
  induction s as [|c s IH]; intros [|n] Hn; cbn in *; trivial; [lia|].
  f_equal. apply IH. lia.
Qed.

Lemma take_all_chars (p : ascii -> bool) (s : string) :
  forall n, all_chars p s = true -> all_chars p (JS.take n s) = true.
Proof.
  induction s as [|c s IH]; intros [|n] H; cbn in *; trivial.
  apply andb_true_iff in H as [H1 H2]. now rewrite H1, IH.
Qed.

Lemma prefix_take (s : string) : forall n, String.prefix (JS.take n s) s = true.
Proof.
  induction s as [|c s IH]; intros [|n]; cbn; trivial.
  destruct (ascii_dec c c); [apply IH | congruence].
Qed.

Lemma even_mod2 (j : nat) : Nat.even j = (j mod 2 =? 0)%nat.
Proof.
  rewrite (Nat.div_mod_eq j 2) at 1.
  rewrite Nat.add_comm, Nat.even_add_mul_2.
  assert (H : (j mod 2 = 0 \/ j mod 2 = 1)%nat) by lia.
  destruct H as [-> | ->]; reflexivity.
Qed.

(* ================================================================= *)
(** ** Division by a radix *)

Lemma base_eq : base = 62.
Proof. reflexivity. Qed.

Lemma quot_rem_radix (b v : Z) :
  0 < b -> 0 <= v ->
  0 <= Z.rem v b < b /\ 0 <= Z.quot v b /\ v = Z.quot v b * b + Z.rem v b.
Proof.
  intros Hb Hv.
  rewrite Z.rem_mod_nonneg, Z.quot_div_nonneg by lia.
  pose proof (Z.mod_pos_bound v b Hb).
  pose proof (Z.div_mod v b ltac:(lia)).
  pose proof (Z.div_pos v b Hv Hb).
  lia.
Qed.

Lemma below_pow_bits (b v : Z) :
  2 <= b -> 0 <= v -> v < b ^ Z.of_nat (S (Z.to_nat (Z.log2 v))).
Proof.
  intros Hb Hv.
  assert (H0 : 0 <= Z.log2 v) by apply Z.log2_nonneg.
  replace (Z.of_nat (S (Z.to_nat (Z.log2 v)))) with (Z.succ (Z.log2 v)) by lia.
  destruct (Z.eq_dec v 0) as [->|Hnz].
  - simpl. lia.
  - apply Z.lt_le_trans with (2 ^ Z.succ (Z.log2 v)).
    + apply Z.log2_spec. lia.
    + apply Z.pow_le_mono_l. lia.
Qed.

Lemma shiftr_1 (x : Z) : Z.shiftr x 1 = x / 2.
Proof. now rewrite Z.shiftr_div_pow2 by lia. Qed.

Lemma ceil_half_bounds (n : Z) : 2 * JS.ceil_half n - 1 <= n <= 2 * JS.ceil_half n.
Proof. unfold JS.ceil_half. lia. Qed.

(* ================================================================= *)
(** ** The base-62 loops are inverse to each other *)

Lemma hexToCustomAlphabet_loop_S (fuel : nat) (decimal : Z) (result : string) :
  hexToCustomAlphabet_loop (S fuel) decimal result =
  if 0 <? Z.quot decimal 62
  then hexToCustomAlphabet_loop fuel (Z.quot decimal 62)
         (JS.index ALPHABET (Z.rem decimal 62) ++ result)
  else Return (JS.index ALPHABET (Z.rem decimal 62) ++ result).
Proof. reflexivity. Qed.

Lemma encodes_symbol (c : ascii) (r : Z) :
  0 <= r < 62 -> JS.indexOf ALPHABET c = r -> encodes (String c "") r.
Proof.
  intros Hr Hc rest d. cbn [append customAlphabetToHex_loop String.length].
  rewrite Hc. destruct (r =? -1) eqn:E; [lia|].
  reflexivity.
Qed.

Lemma encodes_snoc (s : string) (q : Z) (c : ascii) (r : Z) :
  encodes s q -> 0 <= r < 62 -> JS.indexOf ALPHABET c = r ->
  encodes (s ++ String c "") (q * 62 + r).
Proof.
  intros Hs Hr Hc rest d.
  rewrite str_app_assoc, Hs.
  pose proof (encodes_symbol c r Hr Hc rest) as H1. cbn [append] in H1 |- *.
  rewrite H1. f_equal.
  rewrite str_length_app. cbn [String.length].
  rewrite Nat2Z.inj_add, Z.pow_add_r by lia.
  change (Z.of_nat 1) with 1. change base with 62. ring.
Qed.

Lemma in_alphabet_symbol (c : ascii) (r : Z) :
  0 <= r < 62 -> JS.indexOf ALPHABET c = r -> all_chars in_alphabet (String c "") = true.
Proof.
  intros Hr Hc. unfold in_alphabet. cbn [all_chars]. rewrite Hc.
  destruct (r =? -1) eqn:E; [lia | reflexivity].
Qed.

Lemma hexToCustomAlphabet_loop_encodes (fuel : nat) :
  forall v acc,
    0 <= v < 62 ^ Z.of_nat (S fuel) ->
    exists s,
      hexToCustomAlphabet_loop (S fuel) v acc = Return (s ++ acc)
      /\ s <> "" /\ encodes s v
      /\ all_chars in_alphabet s = true
      /\ 62 ^ (Z.of_nat (String.length s) - 1) <= Z.max v 1.
Proof.
  induction fuel as [|fuel IH]; intros v acc Hv;
    rewrite hexToCustomAlphabet_loop_S;
    destruct (quot_rem_radix 62 v ltac:(lia) ltac:(lia)) as (Hr & Hq & Hsplit);
    destruct (alphabet_symbol _ Hr) as (c & Hc & Hi);
    rewrite Hc.
  - assert (Z.quot v 62 = 0).
    { change (Z.of_nat 1) with 1 in Hv. rewrite Z.pow_1_r in Hv. lia. }
    destruct (0 <? Z.quot v 62) eqn:E; [lia|].
    exists (String c ""). repeat split.
    + discriminate.
    + assert (Hv0 : v = Z.rem v 62) by lia. rewrite Hv0. now apply encodes_symbol.
    + now apply (in_alphabet_symbol c (Z.rem v 62)).
    + simpl. lia.
  - destruct (0 <? Z.quot v 62) eqn:E.
    + assert (Hq' : 0 <= Z.quot v 62 < 62 ^ Z.of_nat (S fuel)).
      { split; [lia|].
        rewrite (Nat2Z.inj_succ (S fuel)), Z.pow_succ_r in Hv by lia. lia. }
      destruct (IH _ (String c "" ++ acc) Hq') as (s & Hs & Hne & Henc & Hal & Hmin).
      exists (s ++ String c ""). repeat split.
      * rewrite Hs, str_app_assoc. reflexivity.
      * destruct s; discriminate.
      * rewrite Hsplit at 1. apply encodes_snoc; trivial.
      * rewrite all_chars_app, Hal. now apply (in_alphabet_symbol c (Z.rem v 62)).
      * rewrite str_length_app. cbn [String.length].
        replace (Z.of_nat (String.length s + 1) - 1)
          with (Z.succ (Z.of_nat (String.length s) - 1)) by lia.
        destruct s as [|c0 s0]; [congruence|]. cbn [String.length] in *.
        rewrite Z.pow_succ_r by lia. lia.
    + exists (String c ""). repeat split.
      * discriminate.
      * assert (Hv0 : v = Z.rem v 62) by lia. rewrite Hv0. now apply encodes_symbol.
      * now apply (in_alphabet_symbol c (Z.rem v 62)).
      * simpl. lia.
Qed.

(* ================================================================= *)
(** ** Hexadecimal digit strings *)

Lemma parse_hex_app (a b : string) :
  forall acc,
    JS.parse_hex acc (a ++ b) =
    match JS.parse_hex acc a with
    | Some v => JS.parse_hex v b
    | None => None
    end.
Proof.
  induction a as [|c a IH]; intros acc; cbn [append JS.parse_hex]; [reflexivity|].
  destruct (JS.hex_value c); [apply IH | reflexivity].
Qed.

Lemma parse_hex_value (s : string) :
  any_hex s ->
  exists v, hex_denotes s v /\ 0 <= v < 16 ^ Z.of_nat (String.length s)
            /\ forall acc, JS.parse_hex acc s = Some (acc * 16 ^ Z.of_nat (String.length s) + v).
Proof.
  unfold any_hex, hex_denotes.
  induction s as [|c s IH]; cbn [all_chars]; intros H.
  - exists 0. cbn. repeat split; try lia. intros acc. f_equal. lia.
  - apply andb_true_iff in H as [Hc Hs].
    destruct (hex_char_value c Hc) as (d & Hd & Hdr).
    destruct (IH Hs) as (v & _ & Hv & Hacc).
    exists (d * 16 ^ Z.of_nat (String.length s) + v).
    assert (Hp : 16 ^ Z.of_nat (String.length (String c s))
                 = 16 * 16 ^ Z.of_nat (String.length s)).
    { cbn [String.length]. rewrite Nat2Z.inj_succ, Z.pow_succ_r by lia. reflexivity. }
    rewrite Hp. cbn [JS.parse_hex]. rewrite Hd.
    repeat split.
    + rewrite Hacc. f_equal.
    + nia.
    + nia.
    + intros acc. rewrite Hacc. f_equal. ring.
Qed.

Lemma hex_digits_S (fuel : nat) (v : Z) (acc : string) :
  JS.hex_digits (S fuel) v acc =
  if v <=? 0 then acc
  else JS.hex_digits fuel (Z.quot v 16) (String (JS.hex_digit (Z.rem v 16)) acc).
Proof. reflexivity. Qed.

Lemma hex_digits_zero (fuel : nat) (acc : string) : JS.hex_digits fuel 0 acc = acc.
Proof. destruct fuel; reflexivity. Qed.

(** What [hex_digits] puts in front of its accumulator. *)
Lemma hex_digits_spec (fuel : nat) :
  forall v acc,
    0 <= v < 16 ^ Z.of_nat fuel ->
    exists s,
      JS.hex_digits fuel v acc = s ++ acc
      /\ lower_hex s /\ no_leading_zero s /\ (s = "" -> v = 0)
      /\ forall d, JS.parse_hex d s = Some (d * 16 ^ Z.of_nat (String.length s) + v).
Proof.
  induction fuel as [|fuel IH]; intros v acc Hv.
  - exists "". cbn in Hv. cbn. repeat split; try lia. intros d. f_equal. lia.
  - rewrite hex_digits_S. destruct (v <=? 0) eqn:E.
    + exists "". cbn. repeat split; try lia. intros d. f_equal. lia.
    + destruct (quot_rem_radix 16 v ltac:(lia) ltac:(lia)) as (Hr & Hq & Hsplit).
      destruct (hex_digit_value _ Hr) as (Hdv & Hdl & Hd0).
      assert (Hq' : 0 <= Z.quot v 16 < 16 ^ Z.of_nat fuel).
      { rewrite Nat2Z.inj_succ, Z.pow_succ_r in Hv by lia. lia. }
      destruct (IH _ (String (JS.hex_digit (Z.rem v 16)) acc) Hq')
        as (s & Hs & Hlow & Hlead & Hemp & Hparse).
      exists (s ++ String (JS.hex_digit (Z.rem v 16)) ""). repeat split.
      * rewrite Hs, str_app_assoc. reflexivity.
      * unfold lower_hex in *. rewrite all_chars_app, Hlow. cbn. now rewrite Hdl.
      * destruct s as [|c0 s0]; cbn; [|exact Hlead].
        intros Hz. specialize (Hd0 Hz). specialize (Hemp eq_refl). lia.
      * destruct s; discriminate.
      * intros d. rewrite parse_hex_app, Hparse. cbn [JS.parse_hex]. rewrite Hdv.
        f_equal. rewrite str_length_app. cbn [String.length].
        rewrite Nat2Z.inj_add, Z.pow_add_r by lia. change (Z.of_nat 1) with 1.
        rewrite Z.pow_1_r. lia.
Qed.

Lemma toString16_spec (v : Z) :
  0 <= v ->
  lower_hex (JS.toString16 v) /\ JS.toString16 v <> ""
  /\ hex_denotes (JS.toString16 v) v
  /\ (0 < v -> no_leading_zero (JS.toString16 v)).
Proof.
  intros Hv. unfold JS.toString16. destruct (v <=? 0) eqn:E.
  - assert (v = 0) by lia. subst v. repeat split; try discriminate; try lia.
  - destruct (hex_digits_spec (S (Z.to_nat (Z.log2 v))) v ""
                ltac:(split; [lia | apply below_pow_bits; lia]))
      as (s & Hs & Hlow & Hlead & Hemp & Hparse).
    rewrite Hs, str_app_nil_r. repeat split; trivial.
    + intros ->. specialize (Hemp eq_refl). lia.
    + unfold hex_denotes. rewrite Hparse. f_equal.
Qed.

Lemma hex_denotes_cons (c : ascii) (s : string) (v : Z) :
  lower_hex (String c s) -> hex_denotes (String c s) v ->
  exists d vs, JS.hex_value c = Some d /\ 0 <= d < 16 /\ JS.hex_digit d = c
               /\ (d = 0 -> c = "0"%char)
               /\ lower_hex s /\ hex_denotes s vs
               /\ 0 <= vs < 16 ^ Z.of_nat (String.length s)
               /\ v = d * 16 ^ Z.of_nat (String.length s) + vs.
Proof.
  unfold lower_hex, hex_denotes. cbn [all_chars JS.parse_hex]. intros H Hv.
  apply andb_true_iff in H as [Hc Hs].
  destruct (lower_hex_char_value c Hc) as (d & Hd & Hdr & Hdc & Hd0).
  destruct (parse_hex_value s (lower_hex_any s Hs)) as (vs & Hvs & Hb & Hacc).
  rewrite Hd, Hacc in Hv. injection Hv as <-.
  exists d, vs. repeat split; trivial; lia.
Qed.

(** The low digits of a value come out of [hex_digits] first. *)
Lemma hex_digits_peel (t : string) :
  forall fuel u acc vt,
    lower_hex t -> hex_denotes t vt -> 0 < u ->
    JS.hex_digits (String.length t + fuel) (u * 16 ^ Z.of_nat (String.length t) + vt) acc
    = JS.hex_digits fuel u (t ++ acc).
Proof.
  induction t as [|c t IH]; intros fuel u acc vt Hlow Hden Hu.
  - unfold hex_denotes in Hden. cbn in Hden. injection Hden as <-.
    cbn [String.length append Nat.add]. f_equal. cbn. lia.
  - destruct (hex_denotes_cons c t vt Hlow Hden)
      as (d & vs & Hd & Hdr & Hdc & _ & Hlt & Hvs & Hb & ->).
    cbn [String.length append].
    replace (S (String.length t) + fuel)%nat with (String.length t + S fuel)%nat by lia.
    replace (u * 16 ^ Z.of_nat (S (String.length t)) + (d * 16 ^ Z.of_nat (String.length t) + vs))
      with ((u * 16 + d) * 16 ^ Z.of_nat (String.length t) + vs)
      by (rewrite Nat2Z.inj_succ, Z.pow_succ_r by lia; ring).
    rewrite (IH (S fuel) (u * 16 + d) acc vs Hlt Hvs ltac:(lia)).
    rewrite hex_digits_S.
    destruct (u * 16 + d <=? 0) eqn:E; [lia|].
    destruct (quot_rem_radix 16 (u * 16 + d) ltac:(lia) ltac:(lia)) as (Hr & Hq & Hsplit).
    replace (Z.quot (u * 16 + d) 16) with u by lia.
    replace (Z.rem (u * 16 + d) 16) with d by lia.
    rewrite Hdc. reflexivity.
Qed.

Lemma toString16_no_leading_zero (c : ascii) (s : string) (v : Z) :
  lower_hex (String c s) -> c <> "0"%char -> hex_denotes (String c s) v ->
  JS.toString16 v = String c s.
Proof.
  intros Hlow Hc Hden.
  destruct (hex_denotes_cons c s v Hlow Hden)
    as (d & vs & Hd & Hdr & Hdc & Hd0 & Hlt & Hvs & Hb & ->).
  assert (Hdpos : 0 < d) by (destruct (Z.eq_dec d 0); [exfalso; auto | lia]).
  set (n := Z.of_nat (String.length s)) in *.
  assert (Hpow : 2 ^ n <= 16 ^ n) by (apply Z.pow_le_mono_l; lia).
  assert (H16 : 0 < 16 ^ n) by (apply Z.pow_pos_nonneg; lia).
  assert (Hv : 16 ^ n <= d * 16 ^ n + vs) by nia.
  assert (Hlog : n <= Z.log2 (d * 16 ^ n + vs)) by (apply Z.log2_le_pow2; lia).
  unfold JS.toString16.
  destruct (d * 16 ^ n + vs <=? 0) eqn:E; [lia|].
  replace (S (Z.to_nat (Z.log2 (d * 16 ^ n + vs))))
    with (String.length s + S (Z.to_nat (Z.log2 (d * 16 ^ n + vs)) - String.length s))%nat
    by lia.
  unfold n. rewrite (hex_digits_peel s _ d "" vs Hlt Hvs Hdpos).
  rewrite hex_digits_S.
  destruct (d <=? 0) eqn:E1; [lia|].
  destruct (quot_rem_radix 16 d ltac:(lia) ltac:(lia)) as (Hr & Hq & Hsplit).
  replace (Z.quot d 16) with 0 by lia.
  replace (Z.rem d 16) with d by lia.
  rewrite hex_digits_zero, Hdc, str_app_nil_r. reflexivity.
Qed.

(** [toString(16)] of what a digit string denotes is that string without
    its leading zeros. *)
Lemma toString16_canonical (h : string) :
  forall v, lower_hex h -> hex_denotes h v -> JS.toString16 v = canonical_hex h.
Proof.
  induction h as [|c h IH]; intros v Hlow Hden.
  - unfold hex_denotes in Hden. cbn in Hden. injection Hden as <-. reflexivity.
  - unfold canonical_hex. cbn [strip_zeros].
    destruct (Ascii.eqb c "0") eqn:E.
    + apply Ascii.eqb_eq in E. subst c.
      apply IH.
      * unfold lower_hex in *. cbn [all_chars] in Hlow.
        now apply andb_true_iff in Hlow as [_ Hlow].
      * exact Hden.
    + apply Ascii.eqb_neq in E. now apply toString16_no_leading_zero.
Qed.

Lemma canonical_hex_no_leading_zero (h : string) :
  h <> "" -> no_leading_zero h -> canonical_hex h = h.
Proof.
  destruct h as [|c h]; [congruence|]. cbn. intros _ Hc.
  unfold canonical_hex. cbn [strip_zeros].
  apply Ascii.eqb_neq in Hc. rewrite Hc. reflexivity.
Qed.

Lemma strip_zeros_all_zero (h : string) :
  strip_zeros h = "" <-> all_chars (fun c => Ascii.eqb c "0") h = true.
Proof.
  induction h as [|c h IH]; cbn [strip_zeros all_chars]; [split; reflexivity|].
  destruct (Ascii.eqb c "0"); cbn [andb]; [exact IH | split; discriminate].
Qed.

Lemma lowercase_spec (h : string) :
  any_hex h ->
  lower_hex (lowercase h)
  /\ (forall acc, JS.parse_hex acc (lowercase h) = JS.parse_hex acc h)
  /\ (h <> "" -> lowercase h <> "").
Proof.
  unfold any_hex, lower_hex.
  induction h as [|c h IH]; cbn [all_chars lowercase JS.parse_hex]; intros H.
  - repeat split; congruence.
  - apply andb_true_iff in H as [Hc Hh].
    destruct (lowercase_char_spec c Hc) as [Hl Hv].
    destruct (IH Hh) as (IH1 & IH2 & _).
    rewrite Hl, IH1, Hv. repeat split; try discriminate.
    intros acc. destruct (JS.hex_value c); [apply IH2 | reflexivity].
Qed.

Lemma lowercase_lower (h : string) : lower_hex h -> lowercase h = h.
Proof.
  unfold lower_hex. induction h as [|c h IH]; cbn [all_chars lowercase]; intros H; trivial.
  apply andb_true_iff in H as [Hc Hh]. now rewrite lowercase_char_lower, IH.
Qed.

(* ================================================================= *)
(** ** Hexadecimal literals *)

Lemma hex_value_not_white_space (c : ascii) (d : Z) :
  JS.hex_value c = Some d -> JS.is_white_space c = false.
Proof.
  destruct c as [b0 b1 b2 b3 b4 b5 b6 b7].
  destruct b0, b1, b2, b3, b4, b5, b6, b7; vm_compute; intros H;
    solve [reflexivity | discriminate H].
Qed.

Lemma trim_end_digits (h : string) :
  forall acc v, JS.parse_hex acc h = Some v -> JS.trim_end h = h.
Proof.
  induction h as [|c h IH]; intros acc v H; [reflexivity|].
  cbn [JS.parse_hex] in H. cbn [JS.trim_end].
  destruct (JS.hex_value c) as [d|] eqn:Hd; [|discriminate H].
  rewrite (IH _ _ H), (hex_value_not_white_space c d Hd).
  destruct h; reflexivity.
Qed.

Lemma trim_end_white (ws : string) : white_space ws -> JS.trim_end ws = "".
Proof.
  unfold white_space.
  induction ws as [|c ws IH]; cbn [all_chars JS.trim_end]; intros H; [reflexivity|].
  apply andb_true_iff in H as [Hc Hws]. now rewrite (IH Hws), Hc.
Qed.

Lemma trim_end_app (a ws : string) :
  white_space ws -> JS.trim_end (a ++ ws) = JS.trim_end a.
Proof.
  intros Hws. induction a as [|c a IH]; cbn [append JS.trim_end].
  - now apply trim_end_white.
  - now rewrite IH.
Qed.

(** What [trim_end] drops is white space. *)
Lemma trim_end_split (h : string) :
  exists ws, h = JS.trim_end h ++ ws /\ white_space ws.
Proof.
  unfold white_space.
  induction h as [|c h (ws & Hh & Hws)]; [exists ""; split; reflexivity|].
  cbn [JS.trim_end]. destruct (JS.trim_end h) as [|c' r] eqn:E.
  - cbn [append] in Hh. subst ws.
    destruct (JS.is_white_space c) eqn:Hc.
    + exists (String c h). split; [reflexivity|]. cbn [all_chars]. now rewrite Hc.
    + exists h. split; [reflexivity | exact Hws].
  - exists ws. split; [|exact Hws]. cbn [append]. f_equal. exact Hh.
Qed.

(** On a digit string [BigInt] returns what the string denotes. *)
Lemma BigInt_0x_digits (h : string) (v : Z) :
  h <> "" -> hex_denotes h v -> JS.BigInt_0x h = Return v.
Proof.
  intros Hne Hden. unfold JS.BigInt_0x. rewrite (trim_end_digits h 0 v Hden).
  destruct h; [congruence|]. unfold hex_denotes in Hden. now rewrite Hden.
Qed.

Lemma BigInt_0x_throw (hex : string) (e : error) :
  JS.BigInt_0x hex = Throw e -> e = SyntaxError.
Proof.
  unfold JS.BigInt_0x. destruct (JS.trim_end hex) as [|c r]; [congruence|].
  destruct (JS.parse_hex 0 (String c r)); congruence.
Qed.

(* ================================================================= *)
(** ** The codec on digit strings *)

Lemma hexToCustomAlphabet_value (h : string) (v : Z) :
  h <> "" -> hex_denotes h v -> 0 <= v ->
  exists a,
    hexToCustomAlphabet h = Return a
    /\ a <> "" /\ all_chars in_alphabet a = true
    /\ customAlphabetToHex_loop a 0 = Return v
    /\ 62 ^ (Z.of_nat (String.length a) - 1) <= Z.max v 1.
Proof.
  intros Hne Hden Hv.
  unfold hexToCustomAlphabet. rewrite (BigInt_0x_digits h v Hne Hden).
  destruct h as [|c h]; [congruence|]. cbn [JS.falsy bind]. unfold loop_fuel.
  destruct (hexToCustomAlphabet_loop_encodes (Z.to_nat (Z.log2 v)) v ""
              ltac:(split; [lia | apply below_pow_bits; lia]))
    as (a & Ha & Hane & Henc & Hal & Hmin).
  rewrite str_app_nil_r in Ha.
  exists a. repeat split; trivial.
  specialize (Henc "" 0). rewrite str_app_nil_r in Henc. rewrite Henc. cbn. reflexivity.
Qed.

Lemma customAlphabetToHex_of_value (a : string) (v : Z) :
  a <> "" -> customAlphabetToHex_loop a 0 = Return v ->
  customAlphabetToHex a = Return (JS.toString16 v).
Proof.
  intros Hne Hv. unfold customAlphabetToHex.
  destruct a; [congruence|]. cbn [JS.falsy]. rewrite Hv. reflexivity.
Qed.

Lemma codec_round_trip_value (h : string) :
  any_hex h -> h <> "" ->
  exists v a,
    hex_denotes h v /\ 0 <= v < 16 ^ Z.of_nat (String.length h)
    /\ hexToCustomAlphabet h = Return a
    /\ a <> "" /\ all_chars in_alphabet a = true
    /\ 62 ^ (Z.of_nat (String.length a) - 1) <= Z.max v 1
    /\ customAlphabetToHex a = Return (JS.toString16 v).
Proof.
  intros Hhex Hne.
  destruct (parse_hex_value h Hhex) as (v & Hden & Hb & _).
  destruct (hexToCustomAlphabet_value h v Hne Hden ltac:(lia))
    as (a & Ha & Hane & Hal & Hdec & Hmin).
  exists v, a. repeat split; trivial; try lia.
  now apply customAlphabetToHex_of_value.
Qed.

Lemma hexToCustomAlphabet_zero (h : string) :
  h <> "" -> hex_denotes h 0 -> hexToCustomAlphabet h = Return "a".
Proof.
  intros Hne Hden. unfold hexToCustomAlphabet. rewrite (BigInt_0x_digits h 0 Hne Hden).
  destruct h as [|c h]; [congruence|]. reflexivity.
Qed.

(** The round trip of the codec on a digit string in either case. *)
Lemma codec_round_trip_canonical (h : string) :
  any_hex h -> h <> "" ->
  exists a,
    hexToCustomAlphabet h = Return a /\ a <> "" /\ all_chars in_alphabet a = true
    /\ customAlphabetToHex a = Return (canonical_hex (lowercase h)).
Proof.
  intros Hhex Hne.
  destruct (codec_round_trip_value h Hhex Hne)
    as (v & a & Hden & Hv & Ha & Hane & Hal & _ & Hback).
  destruct (lowercase_spec h Hhex) as (Hlow & Hparse & _).
  exists a. repeat split; trivial.
  rewrite Hback. f_equal. apply toString16_canonical; trivial.
  unfold hex_denotes in *. now rewrite Hparse.
Qed.

Lemma id_length_bound (a : string) (v : Z) :
  62 ^ (Z.of_nat (String.length a) - 1) <= Z.max v 1 -> v < 16 ^ 80 ->
  JS.length a <= 54.
Proof.
  intros Hmin Hv. unfold JS.length.
  destruct (Z_le_gt_dec (Z.of_nat (String.length a)) 54) as [H|H]; trivial.
  assert (H1 : 62 ^ 54 <= 62 ^ (Z.of_nat (String.length a) - 1))
    by (apply Z.pow_le_mono_r; lia).
  assert (H2 : 16 ^ 80 < 62 ^ 54) by (apply Z.ltb_lt; vm_compute; reflexivity).
  lia.
Qed.

Lemma customAlphabetToHex_loop_total (s : string) :
  forall d,
    (exists v, customAlphabetToHex_loop s d = Return v /\ all_chars in_alphabet s = true)
    \/ (exists e, customAlphabetToHex_loop s d = Throw e /\ InvalidCharacter e
                  /\ all_chars in_alphabet s = false).
Proof.
  induction s as [|c s IH]; intros d; cbn [customAlphabetToHex_loop all_chars].
  - left. eauto.
  - unfold in_alphabet at 1 3.
    destruct (JS.indexOf ALPHABET c =? -1); cbn [negb andb]; [|apply IH].
    right. eexists. split; [reflexivity|]. split; [now exists c | reflexivity].
Qed.

(** Decoding returns on the strings over the alphabet and fails with
    [InvalidCharacter] on the others. *)
Lemma customAlphabetToHex_total (s : string) :
  (exists hex, customAlphabetToHex s = Return hex /\ all_chars in_alphabet s = true)
  \/ (exists e, customAlphabetToHex s = Throw e /\ InvalidCharacter e
                /\ all_chars in_alphabet s = false).
Proof.
  unfold customAlphabetToHex. destruct s as [|c s]; [left; exists ""; split; reflexivity|].
  cbn [JS.falsy].
  destruct (customAlphabetToHex_loop_total (String c s) 0)
    as [(v & -> & H)|(e & -> & He & H)]; cbn [bind]; [left | right]; eauto.
Qed.

Lemma hexToCustomAlphabet_loop_no_throw (fuel : nat) :
  forall v acc e, hexToCustomAlphabet_loop fuel v acc <> Throw e.
Proof.
  induction fuel as [|fuel IH]; intros v acc e; [discriminate|].
  rewrite hexToCustomAlphabet_loop_S. destruct (0 <? Z.quot v 62); [apply IH | discriminate].
Qed.

Lemma hexToCustomAlphabet_throw (hex : string) (e : error) :
  hexToCustomAlphabet hex = Throw e -> e = SyntaxError.
Proof.
  unfold hexToCustomAlphabet.
  destruct hex as [|c hex]; [discriminate|]. cbn [JS.falsy].
  destruct (JS.BigInt_0x (String c hex)) as [v|e'|] eqn:E; cbn [bind].
  - intros H. now apply hexToCustomAlphabet_loop_no_throw in H.
  - intros H. injection H as <-. now apply BigInt_0x_throw in E.
  - discriminate.
Qed.

(* ================================================================= *)
(** ** The interleaving loop *)

Lemma interleave_loop_S (n : nat) (i : Z) (t d acc : string) :
  interleave_loop (S n) i t d acc = interleave_loop n (i + 1) t d (acc ++ piece t d i).
Proof. unfold piece. cbn [interleave_loop]. destruct (negb (Z.rem i 2 =? 0)); reflexivity. Qed.

Lemma interleave_loop_snoc (n : nat) (t d : string) :
  forall i acc,
    interleave_loop (S n) i t d acc
    = interleave_loop n i t d acc ++ piece t d (i + Z.of_nat n).
Proof.
  induction n as [|n IH]; intros i acc.
  - cbn [interleave_loop Z.of_nat]. rewrite Z.add_0_r. unfold piece.
    destruct (negb (Z.rem i 2 =? 0)); reflexivity.
  - rewrite interleave_loop_S, IH, <- interleave_loop_S.
    do 2 f_equal. lia.
Qed.

Lemma interleave_S (t d : string) (n : nat) :
  interleave t d (Z.of_nat (S n)) = interleave t d (Z.of_nat n) ++ piece t d (Z.of_nat n).
Proof.
  unfold interleave. rewrite !Nat2Z.id. now rewrite interleave_loop_snoc.
Qed.

Lemma piece_in_range (t d : string) (n : nat) :
  ((n + 2) / 2 <= String.length t)%nat -> ((n + 1) / 2 <= String.length d)%nat ->
  exists c, piece t d (Z.of_nat n) = String c ""
            /\ (if Nat.even n then String.get (n / 2) t else String.get (n / 2) d) = Some c.
Proof.
  intros Ht Hd. unfold piece, JS.index.
  rewrite Z.shiftr_div_pow2 by lia. change (2 ^ 1) with 2.
  assert (Hh : Z.to_nat (Z.of_nat n / 2) = (n / 2)%nat) by lia.
  destruct (Z.of_nat n / 2 <? 0) eqn:E0; [lia|]. rewrite Hh.
  rewrite even_mod2.
  destruct (Z.rem (Z.of_nat n) 2 =? 0) eqn:E; cbn [negb].
  - assert (E' : (n mod 2 =? 0)%nat = true) by (apply Nat.eqb_eq; lia). rewrite E'.
    destruct (get_lt t (n / 2) ltac:(lia)) as (c & Hc). rewrite Hc. eauto.
  - assert (E' : (n mod 2 =? 0)%nat = false) by (apply Nat.eqb_neq; lia). rewrite E'.
    destruct (get_lt d (n / 2) ltac:(lia)) as (c & Hc). rewrite Hc. eauto.
Qed.

(** Position by position, the interleaved string alternates between the
    token and the digest. *)
Lemma interleave_get (t d : string) (n : nat) :
  ((n + 1) / 2 <= String.length t)%nat -> (n / 2 <= String.length d)%nat ->
  String.length (interleave t d (Z.of_nat n)) = n
  /\ forall j, (j < n)%nat ->
       String.get j (interleave t d (Z.of_nat n))
       = if Nat.even j then String.get (j / 2) t else String.get (j / 2) d.
Proof.
  induction n as [|n IH]; intros Ht Hd.
  - split; [reflexivity | intros j Hj; lia].
  - destruct IH as [Hlen Hget]; [lia | lia |].
    destruct (piece_in_range t d n ltac:(lia) ltac:(lia)) as (c & Hp & Hc).
    rewrite interleave_S, Hp. split.
    + rewrite str_length_app, Hlen. cbn. lia.
    + intros j Hj. destruct (Nat.eq_dec j n) as [->|Hne].
      * rewrite Hc, get_app_r by lia. rewrite Hlen, Nat.sub_diag. reflexivity.
      * rewrite get_app_l by lia. apply Hget. lia.
Qed.

Lemma interleave_lower_hex (t d : string) (n : nat) :
  ((n + 1) / 2 <= String.length t)%nat -> (n / 2 <= String.length d)%nat ->
  lower_hex t -> lower_hex d -> lower_hex (interleave t d (Z.of_nat n)).
Proof.
  intros Ht Hd Hlt Hld.
  destruct (interleave_get t d n Ht Hd) as [Hlen Hget].
  apply all_chars_get. intros j c Hj.
  assert (Hjn : (j < n)%nat).
  { destruct (Nat.lt_ge_cases j n) as [H|H]; trivial.
    rewrite get_ge in Hj by lia. discriminate. }
  rewrite (Hget j Hjn) in Hj.
  destruct (Nat.even j);
    [apply (proj1 (all_chars_get _ t) Hlt _ _ Hj) | apply (proj1 (all_chars_get _ d) Hld _ _ Hj)].
Qed.

Lemma interleave_no_leading_zero (t d : string) (n : nat) :
  ((n + 1) / 2 <= String.length t)%nat -> (n / 2 <= String.length d)%nat ->
  (1 <= n)%nat -> no_leading_zero t ->
  no_leading_zero (interleave t d (Z.of_nat n)) /\ interleave t d (Z.of_nat n) <> "".
Proof.
  intros Ht Hd Hn Hlead.
  destruct (interleave_get t d n Ht Hd) as [Hlen Hget].
  specialize (Hget 0%nat ltac:(lia)). cbn [Nat.even] in Hget.
  change (0 / 2)%nat with 0%nat in Hget.
  destruct (interleave t d (Z.of_nat n)) as [|c r]; [cbn [String.length] in Hlen; lia|].
  split; [|discriminate].
  destruct t as [|c' t']; [cbn [String.length] in Ht; lia|].
  cbn in Hget. injection Hget as ->. exact Hlead.
Qed.

(* ================================================================= *)
(** ** The splitting loop *)

Lemma split_loop_pick (h : string) :
  forall i tok hash,
    0 <= i ->
    split_loop h i tok hash
    = (tok ++ pick (Z.rem i 2 =? 0) h, hash ++ pick (negb (Z.rem i 2 =? 0)) h).
Proof.
  induction h as [|c h IH]; intros i tok hash Hi; cbn [split_loop pick].
  - now rewrite !str_app_nil_r.
  - assert (Hflip : (Z.rem (i + 1) 2 =? 0) = negb (Z.rem i 2 =? 0)).
    { destruct (Z.rem i 2 =? 0) eqn:E; cbn; [apply Z.eqb_neq | apply Z.eqb_eq]; lia. }
    rewrite !IH, Hflip by lia.
    destruct (Z.rem i 2 =? 0); cbn [negb]; rewrite ?str_app_assoc; reflexivity.
Qed.

Lemma split_pick (h : string) : split h = (pick true h, pick false h).
Proof. unfold split. now rewrite split_loop_pick by lia. Qed.

Lemma pick_get (h : string) :
  forall j,
    String.get j (pick true h) = String.get (2 * j) h
    /\ String.get j (pick false h) = String.get (2 * j + 1) h.
Proof.
  induction h as [|c h IH]; intros j; cbn [pick negb].
  - split; reflexivity.
  - split.
    + destruct j as [|j]; [reflexivity|].
      replace (2 * S j)%nat with (S (2 * j + 1)) by lia. cbn [String.get].
      apply IH.
    + replace (2 * j + 1)%nat with (S (2 * j)) by lia. cbn [String.get]. apply IH.
Qed.

Lemma pick_length (h : string) :
  String.length (pick true h) = ((String.length h + 1) / 2)%nat
  /\ String.length (pick false h) = (String.length h / 2)%nat.
Proof.
  induction h as [|c h [IH1 IH2]]; cbn [pick negb String.length].
  - split; reflexivity.
  - rewrite IH1, IH2. split; lia.
Qed.

Lemma split_no_digest (hexId : string) :
  snd (split hexId) = "" <-> JS.length hexId < 2.
Proof.
  rewrite split_pick. cbn [snd]. unfold JS.length.
  destruct (pick_length hexId) as [_ H].
  destruct (pick false hexId) as [|c r] eqn:E; cbn [String.length] in H.
  - split; [intros _; lia | reflexivity].
  - split; [discriminate | intros; lia].
Qed.

(** Splitting undoes interleaving. *)
Lemma split_interleave (t d : string) (n : nat) :
  ((n + 1) / 2 <= String.length t)%nat -> (n / 2 <= String.length d)%nat ->
  split (interleave t d (Z.of_nat n)) = (JS.take ((n + 1) / 2) t, JS.take (n / 2) d).
Proof.
  intros Ht Hd.
  destruct (interleave_get t d n Ht Hd) as [Hlen Hget].
  destruct (pick_length (interleave t d (Z.of_nat n))) as [Hl1 Hl2].
  rewrite Hlen in Hl1, Hl2.
  rewrite split_pick. f_equal.
  - apply get_ext_length.
    + rewrite Hl1, take_length. lia.
    + intros j Hj. rewrite Hl1 in Hj.
      rewrite (proj1 (pick_get _ j)), Hget, take_get by lia.
      rewrite Nat.even_even. f_equal. lia.
  - apply get_ext_length.
    + rewrite Hl2, take_length. lia.
    + intros j Hj. rewrite Hl2 in Hj.
      rewrite (proj2 (pick_get _ j)), Hget, take_get by lia.
      rewrite Nat.even_odd. f_equal. lia.
Qed.

(** Interleaving undoes splitting. *)
Lemma interleave_split (h : string) :
  interleave (fst (split h)) (snd (split h)) (JS.length h) = h.
Proof.
  rewrite split_pick. cbn [fst snd]. unfold JS.length.
  destruct (pick_length h) as [Hl1 Hl2].
  destruct (interleave_get (pick true h) (pick false h) (String.length h)
              ltac:(lia) ltac:(lia)) as [Hlen Hget].
  apply get_ext_length; [exact Hlen|].
  intros j Hj. rewrite Hlen in Hj. rewrite (Hget j Hj), even_mod2.
  destruct (j mod 2 =? 0)%nat eqn:E.
  - apply Nat.eqb_eq in E. rewrite (proj1 (pick_get h _)). f_equal. lia.
  - apply Nat.eqb_neq in E. rewrite (proj2 (pick_get h _)). f_equal. lia.
Qed.

(* ================================================================= *)
(** ** The re-roll loop *)

Lemma draw_length (random : oracle) (pos len k : nat) :
  List.length (draw random pos len k) = len.
Proof. unfold draw. now rewrite length_map, length_seq. Qed.

Lemma getRandomValues_draw (random : oracle) (pos len k : nat) (array : list byte) :
  List.length array = len -> Z.of_nat len <= 65536 ->
  getRandomValues random (pos + k * len) array
  = Return (draw random pos len k, (pos + S k * len)%nat).
Proof.
  intros <- Hq. unfold getRandomValues, draw.
  destruct (65536 <? Z.of_nat (List.length array)) eqn:E; [lia|].
  do 2 f_equal. lia.
Qed.

Lemma getRandomValues_first (random : oracle) (pos len : nat) :
  Z.of_nat len <= 65536 ->
  getRandomValues random pos (repeat x00 len)
  = Return (draw random pos len 0, (pos + S 0 * len)%nat).
Proof.
  intros Hq.
  rewrite <- (getRandomValues_draw random pos len 0 (repeat x00 len));
    [f_equal; lia | apply repeat_length | exact Hq].
Qed.

(** Beyond the quota no byte is drawn. *)
Lemma getRandomValues_quota (random : oracle) (pos : nat) (array : list byte) :
  65536 < Z.of_nat (List.length array) ->
  getRandomValues random pos array = Throw QuotaExceededError.
Proof.
  intros Hq. unfold getRandomValues.
  destruct (65536 <? Z.of_nat (List.length array)) eqn:E; [reflexivity | lia].
Qed.

Lemma reroll_eq (random : oracle) (fuel : nat) (array : list byte) (pos : nat) :
  reroll random fuel array pos =
  if first_below_16 array then
    match fuel with
    | O => Diverge
    | S fuel' =>
        let* (array, pos) := getRandomValues random pos array in
        reroll random fuel' array pos
    end
  else Return (array, pos).
Proof. destruct fuel; reflexivity. Qed.

(** From buffer [j] on, the loop stops at the first buffer that passes the
    test, provided it is granted that many passes. *)
Lemma reroll_finds (random : oracle) (pos len : nat) :
  Z.of_nat len <= 65536 ->
  forall k j,
    first_below_16 (draw random pos len (j + k)) = false ->
    exists m,
      (m <= k)%nat
      /\ first_below_16 (draw random pos len (j + m)) = false
      /\ (forall i, (i < m)%nat -> first_below_16 (draw random pos len (j + i)) = true)
      /\ forall fuel,
          reroll random fuel (draw random pos len j) (pos + S j * len)
          = if (m <=? fuel)%nat
            then Return (draw random pos len (j + m), (pos + S (j + m) * len)%nat)
            else Diverge.
Proof.
  intros Hq. induction k as [|k IH]; intros j Hk.
  - exists 0%nat. rewrite Nat.add_0_r in *. repeat split; trivial; [lia|].
    intros fuel. rewrite reroll_eq, Hk. reflexivity.
  - destruct (first_below_16 (draw random pos len j)) eqn:E.
    + destruct (IH (S j)) as (m & Hm & Hok & Hmin & Hrun).
      { now replace (S j + k)%nat with (j + S k)%nat by lia. }
      exists (S m). replace (j + S m)%nat with (S j + m)%nat by lia.
      repeat split; trivial; [lia| |].
      * intros [|i] Hi; [now rewrite Nat.add_0_r|].
        replace (j + S i)%nat with (S j + i)%nat by lia. apply Hmin. lia.
      * intros fuel. rewrite reroll_eq, E.
        destruct fuel as [|fuel]; [reflexivity|].
        rewrite (getRandomValues_draw random pos len (S j))
          by first [apply draw_length | exact Hq].
        cbn [bind]. rewrite Hrun. reflexivity.
    + exists 0%nat. rewrite Nat.add_0_r. repeat split; trivial; [lia | lia |].
      intros fuel. rewrite reroll_eq, E. reflexivity.
Qed.

Lemma reroll_returns (random : oracle) (pos len : nat) (fuel : nat) :
  Z.of_nat len <= 65536 ->
  forall j,
    reroll random fuel (draw random pos len j) (pos + S j * len) <> Diverge ->
    exists k, first_below_16 (draw random pos len (j + k)) = false.
Proof.
  intros Hq.
  induction fuel as [|fuel IH]; intros j; rewrite reroll_eq;
    destruct (first_below_16 (draw random pos len j)) eqn:E; intros H.
  - congruence.
  - exists 0%nat. now rewrite Nat.add_0_r.
  - rewrite (getRandomValues_draw random pos len (S j)) in H
      by first [apply draw_length | exact Hq].
    cbn [bind] in H. destruct (IH (S j) H) as [k Hk].
    exists (S k). now replace (j + S k)%nat with (S j + k)%nat by lia.
  - exists 0%nat. now rewrite Nat.add_0_r.
Qed.

(** Within the quota the loop throws nothing. *)
Lemma reroll_no_throw (random : oracle) (fuel : nat) :
  forall array pos e,
    Z.of_nat (List.length array) <= 65536 -> reroll random fuel array pos <> Throw e.
Proof.
  induction fuel as [|fuel IH]; intros array pos e Hq; rewrite reroll_eq;
    destruct (first_below_16 array); try discriminate.
  unfold getRandomValues.
  destruct (65536 <? Z.of_nat (List.length array)) eqn:E; [lia|]. cbn [bind].
  apply IH. now rewrite length_map, length_seq.
Qed.

Lemma bytes_hex_spec (array : list byte) :
  String.length (bytes_hex array) = (2 * List.length array)%nat
  /\ lower_hex (bytes_hex array)
  /\ (array <> [] -> first_below_16 array = false ->
      no_leading_zero (bytes_hex array) /\ bytes_hex array <> "").
Proof.
  induction array as [|b array (IHlen & IHlow & _)].
  - split; [reflexivity|]. split; [reflexivity|]. congruence.
  - destruct (byte_hex_spec b) as (c1 & c2 & Hb & H1 & H2 & Hlead).
    cbn [bytes_hex fold_right]. fold (bytes_hex array). rewrite Hb.
    cbn [append String.length List.length].
    split; [rewrite IHlen; lia|]. split.
    + unfold lower_hex in *. cbn [all_chars]. now rewrite H1, H2, IHlow.
    + intros _ Hfirst. split; [apply Hlead; exact Hfirst | discriminate].
Qed.

(** The token the entropy source returns, and the fuel it takes: the
    rendering of the first buffer whose first byte is not below 16. *)
Lemma generateRandomHexToken_spec (random : oracle) (n : Z) (pos : nat) :
  1 <= n <= 131072 ->
  rerolls_end random pos (Z.to_nat (JS.ceil_half n)) ->
  exists m token pos',
    (forall fuel,
        generateRandomHexToken random fuel n pos
        = if (m <=? fuel)%nat then Return (token, pos') else Diverge)
    /\ JS.length token = n /\ lower_hex token /\ no_leading_zero token /\ token <> ""
    /\ token = JS.substring0 (bytes_hex (draw random pos (Z.to_nat (JS.ceil_half n)) m)) n
    /\ first_below_16 (draw random pos (Z.to_nat (JS.ceil_half n)) m) = false
    /\ (forall i, (i < m)%nat ->
          first_below_16 (draw random pos (Z.to_nat (JS.ceil_half n)) i) = true).
Proof.
  intros Hn [k Hk].
  pose proof (ceil_half_bounds n) as Hc.
  set (len := Z.to_nat (JS.ceil_half n)) in *.
  assert (Hq : Z.of_nat len <= 65536) by lia.
  destruct (reroll_finds random pos len Hq k 0 Hk) as (m & _ & Hok & Hmin & Hrun).
  cbn [Nat.add] in Hok, Hrun, Hmin.
  pose proof (draw_length random pos len m) as Hlen.
  destruct (bytes_hex_spec (draw random pos len m)) as (Hhl & Hlow & Hlead).
  destruct Hlead as [Hlead Hne]; trivial.
  { intros E. rewrite E in Hlen. cbn in Hlen. lia. }
  exists m, (JS.substring0 (bytes_hex (draw random pos len m)) n), (pos + S m * len)%nat.
  split; [|split; [|split; [|split; [|split; [|split; [reflexivity | split; trivial]]]]]].
  - intros fuel. unfold generateRandomHexToken.
    destruct (JS.ceil_half n <? 0) eqn:E; [lia|]. fold len.
    rewrite (getRandomValues_first random pos len Hq). cbn [bind]. rewrite Hrun.
    destruct (m <=? fuel)%nat; reflexivity.
  - unfold JS.length, JS.substring0. rewrite take_length, Hhl, Hlen. lia.
  - apply take_all_chars. exact Hlow.
  - unfold JS.substring0.
    destruct (bytes_hex (draw random pos len m)) as [|c rest]; [congruence|].
    destruct (Z.to_nat n) eqn:En; [lia|]. exact Hlead.
  - unfold JS.substring0.
    destruct (bytes_hex (draw random pos len m)) as [|c rest]; [congruence|].
    destruct (Z.to_nat n) eqn:En; [lia|]. discriminate.
Qed.

(** The loop comes back for some fuel exactly when the source ends it. *)
Lemma generateRandomHexToken_terminates (random : oracle) (n : Z) (pos : nat) :
  0 <= JS.ceil_half n <= 65536 ->
  (exists fuel, generateRandomHexToken random fuel n pos <> Diverge)
  <-> rerolls_end random pos (Z.to_nat (JS.ceil_half n)).
Proof.
  intros Hn. set (len := Z.to_nat (JS.ceil_half n)).
  assert (Hq : Z.of_nat len <= 65536) by lia.
  pose proof (getRandomValues_first random pos len Hq) as Hfirst.
  split.
  - intros [fuel H]. unfold generateRandomHexToken in H. fold len in H.
    destruct (JS.ceil_half n <? 0) eqn:E; [lia|].
    rewrite Hfirst in H. cbn [bind] in H.
    apply (reroll_returns random pos len fuel Hq 0).
    intros Hd. rewrite Hd in H. now apply H.
  - intros [k Hk].
    destruct (reroll_finds random pos len Hq k 0 Hk) as (m & _ & _ & _ & Hrun).
    exists m. unfold generateRandomHexToken. fold len.
    destruct (JS.ceil_half n <? 0) eqn:E; [lia|].
    rewrite Hfirst. cbn [bind]. rewrite Hrun, Nat.leb_refl. discriminate.
Qed.

(** What the entropy source can throw: [RangeError] from the allocation
    of the buffer, [QuotaExceededError] from the draw. *)
Lemma generateRandomHexToken_throw (random : oracle) (fuel : nat) (n : Z) (pos : nat) (e : error) :
  generateRandomHexToken random fuel n pos = Throw e ->
  (e = RangeError /\ JS.ceil_half n < 0)
  \/ (e = QuotaExceededError /\ 65536 < JS.ceil_half n).
Proof.
  unfold generateRandomHexToken.
  destruct (JS.ceil_half n <? 0) eqn:E0; [intros H; left; split; [congruence | lia]|].
  destruct (Z_le_gt_dec (JS.ceil_half n) 65536) as [Hq|Hq].
  - rewrite getRandomValues_first by lia. cbn [bind].
    destruct (reroll random fuel _ _) as [[array pos']| e' |] eqn:E; cbn [bind];
      try discriminate.
    exfalso. apply reroll_no_throw in E; [exact E|]. rewrite draw_length. lia.
  - rewrite getRandomValues_quota by (rewrite repeat_length; lia). cbn [bind].
    intros H. right. split; [congruence | lia].
Qed.

(** A request of more than 131072 digits is refused before any byte is
    drawn, whatever the source holds. *)
Lemma generateRandomHexToken_quota (random : oracle) (fuel : nat) (n : Z) (pos : nat) :
  131072 < n ->
  generateRandomHexToken random fuel n pos = Throw QuotaExceededError.
Proof.
  intros Hn. pose proof (ceil_half_bounds n) as Hc.
  unfold generateRandomHexToken.
  destruct (JS.ceil_half n <? 0) eqn:E; [lia|].
  rewrite getRandomValues_quota by (rewrite repeat_length; lia). reflexivity.
Qed.

(* ================================================================= *)
(** ** The hex length budget *)

Lemma calculateHexLength_exact (n : Z) :
  1 <= n <= 54 -> calculateHexLength n = n * 148855 / 100000.
Proof.
  intros Hn.
  pose (P := fun n => (n <? 1) || (calculateHexLength n =? n * 148855 / 100000)).
  assert (HP : P n = true) by (apply (below_forallb P 55); [vm_compute; reflexivity | lia]).
  unfold P in HP. apply orb_true_iff in HP as [HP|HP]; [lia | now apply Z.eqb_eq].
Qed.

Lemma calculateHexLength_range (n : Z) :
  1 <= n <= 54 ->
  1 <= calculateHexLength n <= 80 /\ (2 <= n -> 2 <= calculateHexLength n).
Proof. intros Hn. rewrite calculateHexLength_exact by trivial. lia. Qed.

(** The ratio constant brackets log(62)/log(16): 16^1.4885 < 62 < 16^1.489. *)
Lemma ratio_brackets_logarithm : 16 ^ 2977 < 62 ^ 2000 < 16 ^ 2978.
Proof. split; apply Z.ltb_lt; vm_compute; reflexivity. Qed.

(* ================================================================= *)
(** ** The digest *)

(** The rendered digest has 40 lowercase hexadecimal digits. *)
Lemma sha1_hex (digest : list byte -> list byte) :
  digest_160 digest ->
  forall text,
    String.length (sha1 digest text) = 40%nat /\ lower_hex (sha1 digest text).
Proof.
  intros H text. unfold sha1, arrayBufferToHex.
  destruct (bytes_hex_spec (digest (JS.TextEncoder_encode text))) as (Hl & Hlow & _).
  rewrite H in Hl. split; [exact Hl | exact Hlow].
Qed.

Lemma be_bytes_length (n : nat) (x : Z) : List.length (SHA1.be_bytes n x) = n.
Proof. induction n; cbn [SHA1.be_bytes List.length]; congruence. Qed.

Lemma SHA1_digest_160 : digest_160 SHA1.digest.
Proof.
  intros data. unfold SHA1.digest.
  destruct (SHA1.blocks _ _ _) as [[[[h0 h1] h2] h3] h4].
  now rewrite length_map, !length_app, !be_bytes_length.
Qed.

(* ================================================================= *)
(** ** Generate, then verify *)

Section FacadeProofs.

Variable digest : list byte -> list byte.
Variable random : oracle.
Variable SALT : string.

Lemma createId_locals_spec (n : Z) (salt : string) (pos : nat) :
  1 <= n <= 54 ->
  rerolls_end random pos (token_bytes n) ->
  exists m l,
    (forall fuel,
        createId_locals digest random fuel n salt pos
        = if (m <=? fuel)%nat then Return l else Diverge)
    /\ created digest n salt l.
Proof.
  intros Hn Hend.
  destruct (calculateHexLength_range n Hn) as [Hrange _].
  destruct (generateRandomHexToken_spec random
              (Z.shiftr (calculateHexLength n + 1) 1) pos
              ltac:(rewrite shiftr_1; lia) Hend)
    as (m & token & pos' & Hrun & Hlen & Hlow & Hlead & _).
  exists m.
  exists {| hexLength := calculateHexLength n;
            tokenLength := Z.shiftr (calculateHexLength n + 1) 1;
            hexToken := token;
            hexHash := sha1 digest (salt ++ token);
            hexId := interleave token (sha1 digest (salt ++ token)) (calculateHexLength n);
            position := pos' |}.
  split; [|repeat split; trivial].
  intros fuel. unfold createId_locals.
  destruct (n <=? 0) eqn:E1; [lia|].
  unfold MAX_ID_LENGTH. destruct (n >? 54) eqn:E2; [lia|].
  rewrite Hrun. destruct (m <=? fuel)%nat; reflexivity.
Qed.

(** The interleaved digits of a created identifier. *)
Lemma created_hexId (n : Z) (salt : string) (l : CreateLocals) :
  digest_160 digest -> 1 <= n <= 54 -> created digest n salt l ->
  JS.length (hexId l) = hexLength l
  /\ lower_hex (hexId l) /\ no_leading_zero (hexId l) /\ hexId l <> ""
  /\ split (hexId l)
     = (hexToken l, JS.take (Z.to_nat (hexLength l / 2)) (hexHash l)).
Proof.
  intros Hsha Hn (Hhl & Htl & Hlen & Hlow & Hlead & Hhash & Hid).
  destruct (calculateHexLength_range n Hn) as [Hrange _]. rewrite <- Hhl in Hrange.
  destruct (sha1_hex digest Hsha (salt ++ hexToken l)) as [Hdl Hdlow]. rewrite <- Hhash in Hdl, Hdlow.
  rewrite Htl, shiftr_1 in Hlen. unfold JS.length in Hlen.
  set (k := Z.to_nat (hexLength l)).
  assert (Hk : hexLength l = Z.of_nat k) by lia.
  assert (Ht : ((k + 1) / 2 <= String.length (hexToken l))%nat) by lia.
  assert (Hd : (k / 2 <= String.length (hexHash l))%nat) by lia.
  rewrite Hid, Hk.
  destruct (interleave_get _ _ k Ht Hd) as [Hilen _].
  destruct (interleave_no_leading_zero _ _ k Ht Hd ltac:(lia) Hlead) as [Hilead Hine].
  repeat split; trivial.
  - unfold JS.length. now rewrite Hilen.
  - now apply interleave_lower_hex.
  - rewrite split_interleave by trivial. f_equal.
    + apply take_all. lia.
    + f_equal. lia.
Qed.

Lemma createId_spec (n : Z) (salt : option string) (pos : nat) :
  digest_160 digest -> 1 <= n <= 54 ->
  rerolls_end random pos (token_bytes n) ->
  exists m id l,
    (forall fuel,
        createId digest random SALT fuel
          (Some {| approximateLength := Some n; create_salt := salt |}) pos
        = if (m <=? fuel)%nat then Return (id, position l) else Diverge)
    /\ created digest n (default SALT salt) l
    /\ id <> "" /\ all_chars in_alphabet id = true /\ JS.length id <= 54
    /\ customAlphabetToHex id = Return (hexId l).
Proof.
  intros Hsha Hn Hend.
  destruct (createId_locals_spec n (default SALT salt) pos Hn Hend) as (m & l & Hrun & Hl).
  destruct (created_hexId n _ l Hsha Hn Hl) as (Hlen & Hlow & Hlead & Hne & _).
  destruct (codec_round_trip_value (hexId l) (lower_hex_any _ Hlow) Hne)
    as (v & id & Hden & Hv & Hid & Hidne & Hal & Hmin & Hback).
  destruct (calculateHexLength_range n Hn) as [Hrange _].
  destruct Hl as (Hhl & Hrest). rewrite <- Hhl in Hrange.
  exists m, id, l.
  split; [|split; [exact (conj Hhl Hrest)|]; split; [exact Hidne|]; split; [exact Hal|]; split].
  - intros fuel. unfold createId. cbn [default approximateLength create_salt].
    rewrite Hrun. destruct (m <=? fuel)%nat; [|reflexivity].
    cbn [bind]. rewrite Hid. reflexivity.
  - apply (id_length_bound id v Hmin).
    apply Z.lt_le_trans with (16 ^ Z.of_nat (String.length (hexId l))); [lia|].
    apply Z.pow_le_mono_r; [lia|]. unfold JS.length in Hlen. lia.
  - rewrite Hback. f_equal.
    rewrite (toString16_canonical (hexId l) v Hlow Hden).
    now apply canonical_hex_no_leading_zero.
Qed.

(** Verification of an identifier whose digits are those of a created one. *)
Lemma verifyId_body_created (n : Z) (salt : string) (l : CreateLocals) (id : string) :
  digest_160 digest -> 1 <= n <= 54 -> created digest n salt l ->
  id <> "" -> JS.length id <= 54 -> customAlphabetToHex id = Return (hexId l) ->
  verifyId_body digest id salt = Return (2 <=? n).
Proof.
  intros Hsha Hn Hl Hne Hlen Hback.
  destruct (created_hexId n salt l Hsha Hn Hl) as (_ & _ & _ & _ & Hsplit).
  destruct (calculateHexLength_range n Hn) as [Hrange Hrange2].
  destruct Hl as (Hhl & _ & _ & _ & _ & Hhash & _). rewrite <- Hhl in Hrange, Hrange2.
  destruct (sha1_hex digest Hsha (salt ++ hexToken l)) as [Hdl _]. rewrite <- Hhash in Hdl.
  unfold verifyId_body.
  destruct id as [|c id]; [congruence|]. cbn [JS.falsy orb].
  unfold MAX_ID_LENGTH. destruct (JS.length (String c id) >? 54) eqn:E; [lia|].
  rewrite Hback. cbn [bind]. rewrite Hsplit.
  unfold JS.length at 1. rewrite take_length, Hdl.
  destruct (2 <=? n) eqn:E2.
  - apply Z.leb_le in E2. specialize (Hrange2 E2).
    assert (H1 : 1 <= hexLength l / 2) by lia.
    destruct (Z.of_nat (Nat.min (Z.to_nat (hexLength l / 2)) 40) =? 0) eqn:E3;
      [apply Z.eqb_eq in E3; lia|].
    cbn [try_catch]. rewrite <- Hhash. unfold JS.startsWith.
    now rewrite prefix_take.
  - assert (n = 1) by lia. subst n.
    assert (Hh1 : hexLength l = 1) by (rewrite Hhl; reflexivity).
    rewrite Hh1. reflexivity.
Qed.

End FacadeProofs.

(** An identifier that [createId] returns verifies with the same salt,
    unless it was asked for a single character: then it carries no digit
    of the digest and is rejected. *)
Lemma created_identifier_verifies
    (digest : list byte -> list byte) (random : oracle) (SALT : string)
    (n : Z) (salt : option string) (pos : nat) :
  digest_160 digest -> 1 <= n <= 54 ->
  rerolls_end random pos (token_bytes n) ->
  exists m id pos',
    (forall fuel,
        createId digest random SALT fuel
          (Some {| approximateLength := Some n; create_salt := salt |}) pos
        = if (m <=? fuel)%nat then Return (id, pos') else Diverge)
    /\ id <> "" /\ all_chars in_alphabet id = true /\ JS.length id <= 54
    /\ verifyId_body digest id (default SALT salt) = Return (2 <=? n).
Proof.
  intros Hsha Hn Hend.
  destruct (createId_spec digest random SALT n salt pos Hsha Hn Hend)
    as (m & id & l & Hrun & Hl & Hne & Hal & Hlen & Hback).
  exists m, id, (position l). repeat split; trivial.
  now apply (verifyId_body_created digest n (default SALT salt) l id).
Qed.

Lemma verifyId_body_total (digest : list byte -> list byte) (id salt : string) :
  exists b,
    verifyId_body digest id salt = Return b
    /\ (id = "" \/ JS.length id > 54 \/ all_chars in_alphabet id = false -> b = false).
Proof.
  unfold verifyId_body, MAX_ID_LENGTH.
  destruct (JS.falsy id || (JS.length id >? 54)) eqn:E; [eauto|].
  apply orb_false_iff in E as [E1 E2].
  destruct (customAlphabetToHex_total id) as [(hex & -> & H)|(e & -> & _ & H)];
    cbn [bind try_catch].
  - destruct (split hex) as [tok hash].
    destruct (JS.length hash =? 0); cbn [try_catch]; eexists; (split; [reflexivity|]);
      intros [->|[Hl|Hc]]; try discriminate; try lia; congruence.
  - eauto.
Qed.

Lemma verifyId_defaulted_never_throws
    (digest : list byte -> list byte) (SALT id : string) (options : option VerifyOptions) :
  exists b,
    verifyId_defaulted digest SALT id options = Return b
    /\ (id = "" \/ JS.length id > 54 \/ all_chars in_alphabet id = false -> b = false).
Proof. unfold verifyId_defaulted. apply verifyId_body_total. Qed.

Lemma verifyId_with_options_never_throws
    (digest : list byte -> list byte) (SALT id : string) (options : VerifyOptions) :
  exists b,
    verifyId digest SALT id (Some options) = Return b
    /\ (id = "" \/ JS.length id > 54 \/ all_chars in_alphabet id = false -> b = false).
Proof. unfold verifyId. apply verifyId_body_total. Qed.

Lemma verifyId_body_rejects (digest : list byte -> list byte) (id salt : string) :
  (id = "" \/ JS.length id > 54 -> verifyId_body digest id salt = Return false)
  /\ (forall hexId,
         customAlphabetToHex id = Return hexId -> snd (split hexId) = "" ->
         verifyId_body digest id salt = Return false).
Proof.
  unfold verifyId_body, MAX_ID_LENGTH. split.
  - intros [-> | H]; [reflexivity|].
    destruct (JS.length id >? 54) eqn:E; [|lia]. now rewrite orb_true_r.
  - intros hexId Hhex Hsplit.
    destruct (JS.falsy id || (JS.length id >? 54)); [reflexivity|].
    rewrite Hhex. cbn [bind]. destruct (split hexId) as [tok hash]. cbn [snd] in Hsplit.
    subst hash. reflexivity.
Qed.

Lemma createId_throw (digest : list byte -> list byte) (random : oracle) (SALT : string)
      (fuel : nat) (n : Z) (salt : option string) (pos : nat) (e : error) :
  createId digest random SALT fuel
    (Some {| approximateLength := Some n; create_salt := salt |}) pos = Throw e ->
  (n <= 0 /\ e = Error "ID length must be a positive integer")
  \/ (n > 54 /\ e = Error "ID length exceeds maximum of 54 characters")
  \/ (1 <= n <= 54 /\ (e = SyntaxError \/ e = RangeError)).
Proof.
  unfold createId, createId_locals, MAX_ID_LENGTH. cbn [default approximateLength create_salt].
  destruct (n <=? 0) eqn:E1; cbn [bind].
  { intros H. injection H as <-. left. split; [lia | reflexivity]. }
  destruct (n >? 54) eqn:E2; cbn [bind].
  { intros H. injection H as <-. right. left. split; [lia | reflexivity]. }
  intros H. right. right. split; [lia|].
  destruct (generateRandomHexToken random fuel _ pos) as [[token pos']| e' |] eqn:E;
    cbn [bind] in H; try discriminate.
  - cbn [hexId position] in H.
    destruct (hexToCustomAlphabet _) as [id| e' |] eqn:E'; cbn [bind] in H; try discriminate.
    injection H as <-. left. now apply hexToCustomAlphabet_throw in E'.
  - injection H as <-. right. apply generateRandomHexToken_throw in E.
    destruct E as [[-> _]|[_ Hq]]; [reflexivity|]. exfalso.
    destruct (calculateHexLength_range n ltac:(lia)) as [Hh _].
    pose proof (ceil_half_bounds (Z.shiftr (calculateHexLength n + 1) 1)) as Hc.
    rewrite Z.shiftr_div_pow2 in Hc, Hq by lia. change (2 ^ 1) with 2 in Hc, Hq. lia.
Qed.

(* ================================================================= *)
(** * The properties of the specification *)

(** C1 (amended).  Round-trip integrity: for every digest of 20 bytes,
    every default salt, every salt option [salt] and every
    [approximateLength] from 2 to 54, if the random source ends
    the re-roll loop then [createId] returns an identifier (for every fuel
    from some bound on, always the same one) and [verifyId] with the same
    salt option returns [true] on it, in both copies of [verifyId].
    There is no false negative left: the first-byte guarantee keeps
    leading zeros out of the interleaved digits. *)
Theorem createId_verifyId_round_trip
    (digest : list byte -> list byte) (random : oracle) (SALT : string)
    (n : Z) (salt : option string) (pos : nat) :
  digest_160 digest ->
  2 <= n <= 54 ->
  rerolls_end random pos (token_bytes n) ->
  exists m id pos',
    (forall fuel, (m <= fuel)%nat ->
        createId digest random SALT fuel
          (Some {| approximateLength := Some n; create_salt := salt |}) pos
        = Return (id, pos'))
    /\ verifyId digest SALT id (Some {| verify_salt := salt |}) = Return true
    /\ verifyId_defaulted digest SALT id (Some {| verify_salt := salt |}) = Return true.
Proof.
  intros Hsha Hn Hend.
  destruct (created_identifier_verifies digest random SALT n salt pos Hsha ltac:(lia) Hend)
    as (m & id & pos' & Hrun & _ & _ & _ & Hver).
  assert (E : (2 <=? n) = true) by (apply Z.leb_le; lia). rewrite E in Hver.
  exists m, id, pos'. repeat split.
  - intros fuel Hfuel. enough_fuel Hrun Hfuel.
  - exact Hver.
  - exact Hver.
Qed.

Lemma createId_verifyId_round_trip_witness :
  digest_160 SHA1.digest /\ 2 <= 10 <= 54
  /\ rerolls_end sample_source 0 (token_bytes 10)
  /\ exists m id pos',
      (forall fuel, (m <= fuel)%nat ->
          createId SHA1.digest sample_source "legitid:" fuel
            (Some {| approximateLength := Some 10; create_salt := None |}) 0
          = Return (id, pos'))
      /\ verifyId SHA1.digest "legitid:" id (Some {| verify_salt := None |}) = Return true
      /\ verifyId_defaulted SHA1.digest "legitid:" id (Some {| verify_salt := None |})
         = Return true.
Proof.
  assert (H1 : 2 <= 10 <= 54) by lia.
  assert (H2 : rerolls_end sample_source 0 (token_bytes 10))
    by (exists 1%nat; vm_compute; reflexivity).
  split; [exact SHA1_digest_160|]. split; [exact H1|]. split; [exact H2|].
  exact (createId_verifyId_round_trip SHA1.digest sample_source "legitid:" 10 None 0
           SHA1_digest_160 H1 H2).
Defined.

(** C1 as stated fails at [approximateLength = 1]: the identifier holds
    one hex digit, taken from the token, so [verifyId] extracts no digest
    digit and answers [false], whatever the source and the salt. *)
Lemma round_trip_fails_at_length_1 :
  digest_160 SHA1.digest /\ 1 <= 1 <= 54
  /\ rerolls_end sample_source 0 (token_bytes 1)
  /\ createId SHA1.digest sample_source "legitid:" 1
       (Some {| approximateLength := Some 1; create_salt := Some "legitid:" |}) 0
     = Return ("f", 2%nat)
  /\ customAlphabetToHex "f" = Return "5"
  /\ split "5" = ("5", "")
  /\ verifyId SHA1.digest "legitid:" "f" (Some {| verify_salt := Some "legitid:" |})
     = Return false.
Proof.
  split; [exact SHA1_digest_160|]. split; [lia|].
  split; [exists 1%nat; vm_compute; reflexivity|].
  repeat split; vm_compute; reflexivity.
Qed.

(** C2 (defect of the first copy).  [verifyId(id, { salt = SALT })] has no
    default for its second parameter: when the options are omitted the
    call is rejected with a [TypeError] for every [id], before the body
    runs, where the claim wants [false]. *)
Theorem verifyId_without_options_throws :
  (forall (digest : list byte -> list byte) (SALT id : string),
      verifyId digest SALT id None = Throw TypeError)
  /\ Legitid.verifyId SHA1.digest "a" None = Throw TypeError.
Proof. split; reflexivity. Qed.

(** C3.  [createId] fails with one of its two length errors exactly when
    [approximateLength <= 0] or [approximateLength > 54]; it does so at 0
    and at 55; and at 54 (as at every length from 1 to 54) it returns an
    identifier once the random source ends the re-roll loop. *)
Theorem createId_InvalidLength
    (digest : list byte -> list byte) (random : oracle) (SALT : string)
    (salt : option string) (pos : nat) :
  (forall fuel n,
      (exists e,
          createId digest random SALT fuel
            (Some {| approximateLength := Some n; create_salt := salt |}) pos = Throw e
          /\ InvalidLength e)
      <-> (n <= 0 \/ n > 54))
  /\ (forall fuel, exists e,
         createId digest random SALT fuel
           (Some {| approximateLength := Some 0; create_salt := salt |}) pos = Throw e
         /\ InvalidLength e)
  /\ (forall fuel, exists e,
         createId digest random SALT fuel
           (Some {| approximateLength := Some 55; create_salt := salt |}) pos = Throw e
         /\ InvalidLength e)
  /\ (forall n,
         1 <= n <= 54 -> digest_160 digest -> rerolls_end random pos (token_bytes n) ->
         exists m id pos',
           id <> "" /\
           forall fuel, (m <= fuel)%nat ->
             createId digest random SALT fuel
               (Some {| approximateLength := Some n; create_salt := salt |}) pos
             = Return (id, pos')).
Proof.
  assert (Hthrow : forall fuel n, n <= 0 \/ n > 54 ->
            exists e,
              createId digest random SALT fuel
                (Some {| approximateLength := Some n; create_salt := salt |}) pos = Throw e
              /\ InvalidLength e).
  { intros fuel n Hn. unfold createId, createId_locals, MAX_ID_LENGTH, InvalidLength.
    cbn [default approximateLength create_salt].
    destruct (n <=? 0) eqn:E1; cbn [bind]; [eauto|].
    destruct (n >? 54) eqn:E2; cbn [bind]; [eauto|]. lia. }
  split; [|split; [|split]].
  - intros fuel n. split; [|apply Hthrow].
    intros (e & He & Hinv).
    destruct (createId_throw _ _ _ _ _ _ _ _ He) as [[H _]|[[H _]|[_ [H|H]]]];
      try lia; subst e; destruct Hinv as [Hinv|Hinv]; discriminate Hinv.
  - intros fuel. apply Hthrow. lia.
  - intros fuel. apply Hthrow. lia.
  - intros n Hn Hsha Hend.
    destruct (created_identifier_verifies digest random SALT n salt pos Hsha Hn Hend)
      as (m & id & pos' & Hrun & Hne & _).
    exists m, id, pos'. split; [exact Hne|].
    intros fuel Hfuel. enough_fuel Hrun Hfuel.
Qed.

Lemma createId_InvalidLength_witness :
  1 <= 54 <= 54 /\ digest_160 SHA1.digest
  /\ rerolls_end sample_source 0 (token_bytes 54)
  /\ exists m id pos',
      id <> "" /\
      forall fuel, (m <= fuel)%nat ->
        createId SHA1.digest sample_source "legitid:" fuel
          (Some {| approximateLength := Some 54; create_salt := None |}) 0
        = Return (id, pos').
Proof.
  assert (H1 : 1 <= 54 <= 54) by lia.
  assert (H2 : rerolls_end sample_source 0 (token_bytes 54))
    by (exists 1%nat; vm_compute; reflexivity).
  split; [exact H1|]. split; [exact SHA1_digest_160|]. split; [exact H2|].
  exact (proj2 (proj2 (proj2
           (createId_InvalidLength SHA1.digest sample_source "legitid:" None 0)))
           54 H1 SHA1_digest_160 H2).
Defined.

(** C4.  Alphabet codec inverse: decoding the encoding of the lowercase
    hexadecimal representation of a non-negative integer gives that
    representation back, as it does for every non-empty lowercase digit
    string without a leading zero; and on every digit string (either
    case, leading zeros or not, empty or not) encoding then decoding
    succeeds and gives a string that denotes the same unsigned integer. *)
Theorem alphabet_codec_inverse (n : Z) (h : string) :
  (0 <= n -> codec_round_trip (JS.toString16 n) = Return (JS.toString16 n))
  /\ (lower_hex h -> h <> "" -> no_leading_zero h -> codec_round_trip h = Return h)
  /\ (any_hex h ->
      exists a h' v,
        hexToCustomAlphabet h = Return a /\ customAlphabetToHex a = Return h'
        /\ hex_denotes h v /\ hex_denotes h' v).
Proof.
  assert (Hcanon : forall s, lower_hex s -> s <> "" ->
            codec_round_trip s = Return (canonical_hex s)).
  { intros s Hlow Hne.
    destruct (codec_round_trip_canonical s (lower_hex_any s Hlow) Hne)
      as (a & Ha & _ & _ & Hback).
    unfold codec_round_trip. rewrite Ha. cbn [bind].
    now rewrite Hback, lowercase_lower. }
  split; [|split].
  - intros Hn. destruct (toString16_spec n Hn) as (Hlow & Hne & Hden & _).
    rewrite Hcanon by trivial. f_equal. symmetry.
    now apply toString16_canonical.
  - intros Hlow Hne Hlead. rewrite Hcanon by trivial. f_equal.
    now apply canonical_hex_no_leading_zero.
  - intros Hhex. destruct h as [|c h].
    + exists "", "", 0. repeat split; reflexivity.
    + destruct (codec_round_trip_value (String c h) Hhex ltac:(discriminate))
        as (v & a & Hden & Hv & Ha & _ & _ & _ & Hback).
      exists a, (JS.toString16 v), v. repeat split; trivial.
      now apply toString16_spec.
Qed.

Lemma alphabet_codec_inverse_witness :
  0 <= 48879 /\ lower_hex "beef" /\ "beef" <> "" /\ no_leading_zero "beef"
  /\ any_hex "beef"
  /\ codec_round_trip (JS.toString16 48879) = Return (JS.toString16 48879)
  /\ codec_round_trip "beef" = Return "beef"
  /\ exists a h' v,
      hexToCustomAlphabet "beef" = Return a /\ customAlphabetToHex a = Return h'
      /\ hex_denotes "beef" v /\ hex_denotes h' v.
Proof.
  assert (H0 : 0 <= 48879) by lia.
  assert (H1 : lower_hex "beef") by reflexivity.
  assert (H2 : "beef" <> "") by discriminate.
  assert (H3 : no_leading_zero "beef") by discriminate.
  assert (H4 : any_hex "beef") by reflexivity.
  split; [exact H0|]. split; [exact H1|]. split; [exact H2|]. split; [exact H3|].
  split; [exact H4|].
  destruct (alphabet_codec_inverse 48879 "beef") as (A & B & C).
  split; [exact (A H0)|]. split; [exact (B H1 H2 H3)|]. exact (C H4).
Defined.

(** C5.  Interleave/split inverse: when the token has at least ceil(n/2)
    digits and the digest at least floor(n/2), the interleaved string has
    length [n], carries [t[i/2]] at every even position [i] and [d[i/2]]
    at every odd one, and splitting it yields the first ceil(n/2) digits
    of the token and the first floor(n/2) digits of the digest; and
    splitting any string loses nothing: interleaving the two parts gives
    the string back. *)
Theorem interleave_split_inverse (t d h : string) (n : nat) :
  (((n + 1) / 2 <= String.length t)%nat -> (n / 2 <= String.length d)%nat ->
   String.length (interleave t d (Z.of_nat n)) = n
   /\ (forall i, (i < n)%nat ->
         String.get i (interleave t d (Z.of_nat n))
         = if Nat.even i then String.get (i / 2) t else String.get (i / 2) d)
   /\ split (interleave t d (Z.of_nat n)) = (JS.take ((n + 1) / 2) t, JS.take (n / 2) d))
  /\ interleave (fst (split h)) (snd (split h)) (JS.length h) = h
  /\ String.length (fst (split h)) = ((String.length h + 1) / 2)%nat
  /\ String.length (snd (split h)) = (String.length h / 2)%nat.
Proof.
  split; [|split; [|split]].
  - intros Ht Hd. destruct (interleave_get t d n Ht Hd) as [Hlen Hget].
    repeat split; trivial. now apply split_interleave.
  - apply interleave_split.
  - rewrite split_pick. apply pick_length.
  - rewrite split_pick. apply pick_length.
Qed.

Lemma interleave_split_inverse_witness :
  ((7 + 1) / 2 <= String.length "2e77")%nat /\ (7 / 2 <= String.length "9230")%nat
  /\ String.length (interleave "2e77" "9230" 7) = 7%nat
  /\ split (interleave "2e77" "9230" 7) = ("2e77", "923").
Proof.
  assert (H1 : ((7 + 1) / 2 <= String.length "2e77")%nat) by (vm_compute; lia).
  assert (H2 : (7 / 2 <= String.length "9230")%nat) by (vm_compute; lia).
  split; [exact H1|]. split; [exact H2|].
  destruct (proj1 (interleave_split_inverse "2e77" "9230" "" 7) H1 H2) as (A & _ & B).
  split; [exact A | exact B].
Defined.

(** C6 (amended).  Token length budget: for every valid
    [approximateLength], once the source ends the re-roll loop, the token
    is requested with, and has, exactly [(hexLength + 1) >> 1] digits,
    that is ceil(hexLength / 2): one digit per even position below
    [hexLength], none to spare.  This is ceil((hexLength + 1) / 2) only
    when [hexLength] is odd. *)
Theorem token_length_budget
    (digest : list byte -> list byte) (random : oracle) (n : Z) (salt : string) (pos : nat) :
  1 <= n <= 54 ->
  rerolls_end random pos (token_bytes n) ->
  exists m l,
    (forall fuel, (m <= fuel)%nat ->
        createId_locals digest random fuel n salt pos = Return l)
    /\ tokenLength l = JS.ceil_half (hexLength l)
    /\ JS.length (hexToken l) = tokenLength l
    /\ (forall i, 0 <= i < hexLength l -> Z.rem i 2 = 0 ->
          0 <= Z.shiftr i 1 < tokenLength l)
    /\ 2 * (tokenLength l - 1) < hexLength l
    /\ (tokenLength l = JS.ceil_half (hexLength l + 1) <-> Z.rem (hexLength l) 2 = 1).
Proof.
  intros Hn Hend.
  destruct (createId_locals_spec digest random n salt pos Hn Hend)
    as (m & l & Hrun & Hhl & Htl & Hlen & _).
  destruct (calculateHexLength_range n Hn) as [Hrange _]. rewrite <- Hhl in Hrange.
  rewrite shiftr_1 in Htl.
  exists m, l. repeat split.
  - intros fuel Hfuel. enough_fuel Hrun Hfuel.
  - unfold JS.ceil_half. lia.
  - exact Hlen.
  - rewrite shiftr_1. lia.
  - rewrite shiftr_1. lia.
  - lia.
  - unfold JS.ceil_half. lia.
  - unfold JS.ceil_half. lia.
Qed.

Lemma token_length_budget_witness :
  1 <= 10 <= 54 /\ rerolls_end sample_source 0 (token_bytes 10)
  /\ exists m l,
      (forall fuel, (m <= fuel)%nat ->
          createId_locals SHA1.digest sample_source fuel 10 "legitid:" 0 = Return l)
      /\ tokenLength l = JS.ceil_half (hexLength l)
      /\ JS.length (hexToken l) = tokenLength l.
Proof.
  assert (H1 : 1 <= 10 <= 54) by lia.
  assert (H2 : rerolls_end sample_source 0 (token_bytes 10))
    by (exists 1%nat; vm_compute; reflexivity).
  split; [exact H1|]. split; [exact H2|].
  destruct (token_length_budget SHA1.digest sample_source 10 "legitid:" 0 H1 H2)
    as (m & l & A & B & C & _).
  exists m, l. split; [exact A|]. split; [exact B | exact C].
Defined.

(** C6 as stated fails at [approximateLength = 2]: the hex budget is 2
    and the token is requested with (2 + 1) >> 1 = 1 digit, where
    ceil((2 + 1) / 2) is 2. *)
Lemma token_request_not_oversized :
  exists l,
    createId_locals SHA1.digest sample_source 1 2 "legitid:" 0 = Return l
    /\ hexLength l = 2 /\ tokenLength l = 1 /\ hexToken l = "5"
    /\ JS.ceil_half (hexLength l + 1) = 2
    /\ tokenLength l <> JS.ceil_half (hexLength l + 1).
Proof.
  eexists. split; [vm_compute; reflexivity|].
  repeat split; try reflexivity. discriminate.
Qed.

(** C7.  Rejection policy of [verifyId]: for every digest, every id that
    is empty or longer than 54 characters gets [false] (a returned value,
    not an error); and every id whose decoded hex string has fewer than
    two digits, so that the extracted digest prefix is empty, gets [false]
    as well, whatever the digest function is: no recomputed digest is
    consulted.  The options are supplied to the first copy; the second
    copy takes them or not. *)
Theorem verifyId_rejection_policy
    (digest : list byte -> list byte) (SALT id : string) (options : VerifyOptions) :
  (id = "" \/ JS.length id > 54 ->
   verifyId digest SALT id (Some options) = Return false
   /\ forall o, verifyId_defaulted digest SALT id o = Return false)
  /\ (forall hexId,
         customAlphabetToHex id = Return hexId ->
         (snd (split hexId) = "" <-> JS.length hexId < 2)
         /\ (snd (split hexId) = "" ->
             verifyId digest SALT id (Some options) = Return false
             /\ forall o, verifyId_defaulted digest SALT id o = Return false)).
Proof.
  split.
  - intros H. split; [|intros o]; now apply verifyId_body_rejects.
  - intros hexId Hhex. split; [apply split_no_digest|].
    intros Hsplit. split; [|intros o];
      now apply (proj2 (verifyId_body_rejects digest id _) hexId).
Qed.

Lemma verifyId_rejection_policy_witness :
  ("" = "" \/ JS.length "" > 54)
  /\ customAlphabetToHex "p" = Return "f"
  /\ snd (split "f") = ""
  /\ Legitid.verifyId SHA1.digest "" (Some {| verify_salt := None |}) = Return false
  /\ Legitid.verifyId SHA1.digest "p" (Some {| verify_salt := None |}) = Return false.
Proof.
  assert (H1 : "" = "" \/ JS.length "" > 54) by (left; reflexivity).
  assert (H2 : customAlphabetToHex "p" = Return "f") by reflexivity.
  assert (H3 : snd (split "f") = "") by reflexivity.
  split; [exact H1|]. split; [exact H2|]. split; [exact H3|]. split.
  - exact (proj1 (proj1 (verifyId_rejection_policy SHA1.digest Legitid.SALT ""
                           {| verify_salt := None |}) H1)).
  - exact (proj1 (proj2 (proj2 (verifyId_rejection_policy SHA1.digest Legitid.SALT "p"
                                  {| verify_salt := None |}) "f" H2) H3)).
Defined.

(** C8.  Hex length budget: for every [approximateLength] from 1 to 54
    the binary64 product floored by [calculateHexLength] is the floor of
    the exact product by 1.48855, and that is the [hexLength] of
    [createId], which it reaches once the source ends the re-roll loop;
    the constant is the binary64 nearest to 1.48855. *)
Theorem hex_length_budget
    (digest : list byte -> list byte) (random : oracle) (n : Z) (salt : string) (pos : nat) :
  1 <= n <= 54 ->
  calculateHexLength n = n * 148855 / 100000
  /\ (forall fuel l,
         createId_locals digest random fuel n salt pos = Return l ->
         hexLength l = n * 148855 / 100000)
  /\ (rerolls_end random pos (token_bytes n) ->
      exists m l,
        (forall fuel, (m <= fuel)%nat ->
            createId_locals digest random fuel n salt pos = Return l)
        /\ hexLength l = n * 148855 / 100000)
  /\ HEX_TO_ALPHABET_RATIO = (6703833225322352, -52)
  /\ 2 * Z.abs (6703833225322352 * 100000 - 148855 * 2 ^ 52) <= 100000.
Proof.
  intros Hn. split; [now apply calculateHexLength_exact|]. split; [|split; [|split]].
  - intros fuel l. unfold createId_locals, MAX_ID_LENGTH.
    destruct (n <=? 0) eqn:E1; [lia|]. destruct (n >? 54) eqn:E2; [lia|].
    destruct (generateRandomHexToken _ _ _ _) as [[token pos']| e |]; cbn [bind];
      try discriminate.
    intros H. injection H as <-. cbn [hexLength]. now apply calculateHexLength_exact.
  - intros Hend.
    destruct (createId_locals_spec digest random n salt pos Hn Hend)
      as (m & l & Hrun & Hhl & _).
    exists m, l. split; [intros fuel Hfuel; enough_fuel Hrun Hfuel|].
    rewrite Hhl. now apply calculateHexLength_exact.
  - vm_compute. reflexivity.
  - vm_compute. discriminate.
Qed.

Lemma hex_length_budget_witness :
  1 <= 10 <= 54 /\ calculateHexLength 10 = 14
  /\ createId_locals SHA1.digest sample_source 1 10 "legitid:" 0
     = Return {| hexLength := 14; tokenLength := 7; hexToken := "2e77c00";
                 hexHash := "92308bbcc3ab63edfab111ff8a4c2d89abf7ee53";
                 hexId := "29e27370c80b0b"; position := 8 |}.
Proof.
  assert (H1 : 1 <= 10 <= 54) by lia.
  split; [exact H1|]. split.
  - exact (proj1 (hex_length_budget SHA1.digest sample_source 10 "legitid:" 0 H1)).
  - vm_compute. reflexivity.
Defined.

(** C9 (amended).  Entropy source postcondition: for every
    [hexDigitCount] from 1 to 131072 (the 65536 bytes that
    [crypto.getRandomValues] fills in one call) and every random source
    under which the re-roll loop comes back for some fuel,
    [generateRandomHexToken] returns, for every fuel from some bound [m]
    on, one string of exactly [hexDigitCount] lowercase hexadecimal
    characters whose first character is not ['0']; with less fuel the
    loop is still running.  The string is the rendering, cut to
    [hexDigitCount] characters, of the first buffer whose first byte is
    not below 16: the [m] buffers before it were all drawn again. *)
Theorem generateRandomHexToken_postcondition
    (random : oracle) (hexDigitCount : Z) (pos : nat) :
  1 <= hexDigitCount <= 131072 ->
  (exists fuel, generateRandomHexToken random fuel hexDigitCount pos <> Diverge) ->
  exists m token pos',
    (forall fuel,
        generateRandomHexToken random fuel hexDigitCount pos
        = if (m <=? fuel)%nat then Return (token, pos') else Diverge)
    /\ JS.length token = hexDigitCount
    /\ lower_hex token
    /\ (exists c rest, token = String c rest /\ c <> "0"%char)
    /\ (let len := Z.to_nat (JS.ceil_half hexDigitCount) in
        token = JS.substring0 (bytes_hex (draw random pos len m)) hexDigitCount
        /\ first_below_16 (draw random pos len m) = false
        /\ forall i, (i < m)%nat -> first_below_16 (draw random pos len i) = true).
Proof.
  intros Hn Hterm.
  pose proof (ceil_half_bounds hexDigitCount) as Hc.
  apply generateRandomHexToken_terminates in Hterm; [|lia].
  destruct (generateRandomHexToken_spec random hexDigitCount pos Hn Hterm)
    as (m & token & pos' & Hrun & Hlen & Hlow & Hlead & Hne & Hbuf).
  exists m, token, pos'.
  split; [exact Hrun|]. split; [exact Hlen|]. split; [exact Hlow|]. split; [|exact Hbuf].
  destruct token as [|c rest]; [congruence|].
  exists c, rest. split; [reflexivity | exact Hlead].
Qed.

Lemma generateRandomHexToken_postcondition_witness :
  1 <= 7 <= 131072
  /\ (exists fuel, generateRandomHexToken sample_source fuel 7 0 <> Diverge)
  /\ exists m token pos',
      (forall fuel,
          generateRandomHexToken sample_source fuel 7 0
          = if (m <=? fuel)%nat then Return (token, pos') else Diverge)
      /\ JS.length token = 7
      /\ lower_hex token
      /\ exists c rest, token = String c rest /\ c <> "0"%char.
Proof.
  assert (H1 : 1 <= 7 <= 131072) by lia.
  assert (H2 : exists fuel, generateRandomHexToken sample_source fuel 7 0 <> Diverge)
    by (exists 1%nat; vm_compute; discriminate).
  split; [exact H1|]. split; [exact H2|].
  destruct (generateRandomHexToken_postcondition sample_source 7 0 H1 H2)
    as (m & token & pos' & A & B & C & D & _).
  exists m, token, pos'. split; [exact A|]. split; [exact B|]. split; [exact C | exact D].
Defined.

(** C9 as stated fails at [hexDigitCount = 131073]: the buffer has
    ceil(131073 / 2) = 65537 bytes, one more than
    [crypto.getRandomValues] fills in a call, so the first draw throws a
    [QuotaExceededError]; the re-roll loop is never entered, and no
    string is returned whatever the source holds. *)
Lemma token_request_beyond_quota :
  1 <= 131073
  /\ JS.ceil_half 131073 = 65537
  /\ (exists fuel, generateRandomHexToken sample_source fuel 131073 0 <> Diverge)
  /\ (forall fuel,
        generateRandomHexToken sample_source fuel 131073 0 = Throw QuotaExceededError).
Proof.
  assert (H : forall fuel,
             generateRandomHexToken sample_source fuel 131073 0 = Throw QuotaExceededError)
    by (intros fuel; apply generateRandomHexToken_quota; lia).
  split; [lia|]. split; [reflexivity|]. split; [|exact H].
  exists 0%nat. rewrite H. discriminate.
Qed.

(** C10.  Canonical form of the codec round trip: for every non-empty
    hex string [h] the encoding is non-empty, and decoding it gives [h]
    without its leading zeros, or ["0"] when [h] is made of zeros only;
    in that case the encoding is the first symbol of the alphabet.  Hex
    strings are lowercase, as everywhere in the program; were digits
    [A-F] passed in, they would come back as [a-f]. *)
Theorem codec_canonical_form (h : string) :
  any_hex h -> h <> "" ->
  exists a,
    hexToCustomAlphabet h = Return a /\ a <> ""
    /\ customAlphabetToHex a = Return (canonical_hex (lowercase h))
    /\ (lower_hex h -> customAlphabetToHex a = Return (canonical_hex h))
    /\ (all_chars (fun c => Ascii.eqb c "0") h = true ->
        canonical_hex h = "0" /\ a = JS.index ALPHABET 0)
    /\ (all_chars (fun c => Ascii.eqb c "0") h = false ->
        canonical_hex h = strip_zeros h).
Proof.
  intros Hhex Hne.
  destruct (codec_round_trip_canonical h Hhex Hne) as (a & Ha & Hane & _ & Hback).
  exists a.
  split; [exact Ha|]. split; [exact Hane|]. split; [exact Hback|].
  split; [|split].
  - intros Hlow. now rewrite lowercase_lower in Hback.
  - intros Hz. apply strip_zeros_all_zero in Hz.
    assert (Hc : canonical_hex h = "0") by (unfold canonical_hex; now rewrite Hz).
    split; [exact Hc|].
    assert (Hlow : lower_hex h).
    { apply strip_zeros_all_zero in Hz. revert Hz. apply all_chars_weaken.
      intros c Hc0. apply Ascii.eqb_eq in Hc0. now subst c. }
    destruct (parse_hex_value h Hhex) as (v & Hden & Hv & _).
    pose proof (toString16_canonical h v Hlow Hden) as Hs. rewrite Hc in Hs.
    assert (v = 0).
    { destruct (toString16_spec v ltac:(lia)) as (_ & _ & Hd & _).
      rewrite Hs in Hd. unfold hex_denotes in Hd. cbn in Hd. congruence. }
    subst v. rewrite (hexToCustomAlphabet_zero h Hne Hden) in Ha.
    injection Ha as <-. reflexivity.
  - intros Hnz. unfold canonical_hex.
    destruct (strip_zeros h) eqn:E; [|reflexivity].
    apply strip_zeros_all_zero in E. congruence.
Qed.

Lemma codec_canonical_form_witness :
  any_hex "000a7" /\ "000a7" <> "" /\ lower_hex "000a7"
  /\ exists a,
      hexToCustomAlphabet "000a7" = Return a /\ a <> ""
      /\ customAlphabetToHex a = Return "a7".
Proof.
  assert (H1 : any_hex "000a7") by reflexivity.
  assert (H2 : "000a7" <> "") by discriminate.
  assert (H3 : lower_hex "000a7") by reflexivity.
  split; [exact H1|]. split; [exact H2|]. split; [exact H3|].
  destruct (codec_canonical_form "000a7" H1 H2) as (a & A & B & _ & C & _).
  exists a. split; [exact A|]. split; [exact B | exact (C H3)].
Defined.

(* ================================================================= *)
(** * Further properties of the code *)

(* ================================================================= *)
(** ** Symbols of the alphabet *)

Lemma in_alphabet_index (c : ascii) :
  in_alphabet c = true ->
  0 <= JS.indexOf ALPHABET c < 62
  /\ JS.index ALPHABET (JS.indexOf ALPHABET c) = String c ""
  /\ (JS.indexOf ALPHABET c = 0 -> c = "a"%char).
Proof.
  destruct c as [b0 b1 b2 b3 b4 b5 b6 b7].
  destruct b0, b1, b2, b3, b4, b5, b6, b7; intros H; vm_compute in H; try discriminate H;
    (split; [vm_compute; split; [intros E; discriminate E | reflexivity]|]); (split; [reflexivity|]);
    intros E; vm_compute in E; try discriminate E; reflexivity.
Qed.

(** What the decoding loop returns on a string over the alphabet. *)
Lemma customAlphabetToHex_loop_value (s : string) :
  all_chars in_alphabet s = true ->
  exists v,
    0 <= v < 62 ^ Z.of_nat (String.length s)
    /\ forall d, customAlphabetToHex_loop s d
                 = Return (d * 62 ^ Z.of_nat (String.length s) + v).
Proof.
  induction s as [|c s IH]; cbn [all_chars]; intros H.
  - exists 0. split; [cbn; lia|]. intros d. cbn. f_equal. lia.
  - apply andb_true_iff in H as [Hc Hs].
    destruct (in_alphabet_index c Hc) as (Hi & _ & _).
    destruct (IH Hs) as (v & Hv & Hrun).
    exists (JS.indexOf ALPHABET c * 62 ^ Z.of_nat (String.length s) + v).
    assert (Hp : 62 ^ Z.of_nat (String.length (String c s))
                 = 62 * 62 ^ Z.of_nat (String.length s)).
    { cbn [String.length]. rewrite Nat2Z.inj_succ, Z.pow_succ_r by lia. reflexivity. }
    rewrite Hp. split; [nia|].
    intros d. cbn [customAlphabetToHex_loop].
    destruct (JS.indexOf ALPHABET c =? -1) eqn:E; [lia|].
    rewrite Hrun. change base with 62. f_equal. ring.
Qed.

(** On a symbol outside the alphabet the decoding loop throws, naming the
    first one. *)
Lemma customAlphabetToHex_loop_outside (s : string) (c : ascii) :
  first_outside s = Some c ->
  forall d, customAlphabetToHex_loop s d
            = Throw (Error ("Invalid character: " ++ String c "")).
Proof.
  induction s as [|c0 s IH]; cbn [first_outside]; [discriminate|].
  unfold in_alphabet at 1. intros H d. cbn [customAlphabetToHex_loop].
  destruct (JS.indexOf ALPHABET c0 =? -1); cbn [negb] in H.
  - now injection H as ->.
  - now apply IH.
Qed.

Lemma first_outside_none (s : string) :
  first_outside s = None <-> all_chars in_alphabet s = true.
Proof.
  induction s as [|c s IH]; cbn [first_outside all_chars]; [split; reflexivity|].
  destruct (in_alphabet c); cbn [andb]; [exact IH | split; discriminate].
Qed.

(** The high digits of a value stay in the encoding loop while the low
    ones go in front of the accumulator. *)
Lemma hexToCustomAlphabet_loop_peel (t : string) :
  all_chars in_alphabet t = true ->
  forall fuel u acc vt,
    (forall d, customAlphabetToHex_loop t d
               = Return (d * 62 ^ Z.of_nat (String.length t) + vt)) ->
    0 <= vt < 62 ^ Z.of_nat (String.length t) -> 0 < u ->
    hexToCustomAlphabet_loop (String.length t + S fuel)
      (u * 62 ^ Z.of_nat (String.length t) + vt) acc
    = hexToCustomAlphabet_loop (S fuel) u (t ++ acc).
Proof.
  induction t as [|c t IH]; cbn [all_chars]; intros H fuel u acc vt Hrun Hvt Hu.
  - cbn [String.length] in *. change (Z.of_nat 0) with 0 in *.
    rewrite Z.pow_0_r in *. cbn [Nat.add append]. f_equal. lia.
  - apply andb_true_iff in H as [Hc Ht].
    destruct (in_alphabet_index c Hc) as (Hi & Hsym & _).
    destruct (customAlphabetToHex_loop_value t Ht) as (v & Hv & Hrun').
    assert (Hp : 62 ^ Z.of_nat (String.length (String c t))
                 = 62 * 62 ^ Z.of_nat (String.length t)).
    { cbn [String.length]. rewrite Nat2Z.inj_succ, Z.pow_succ_r by lia. reflexivity. }
    assert (Hvt' : vt = JS.indexOf ALPHABET c * 62 ^ Z.of_nat (String.length t) + v).
    { specialize (Hrun 0). cbn [customAlphabetToHex_loop] in Hrun.
      destruct (JS.indexOf ALPHABET c =? -1) eqn:E; [lia|].
      rewrite Hrun' in Hrun. injection Hrun as Hrun. change base with 62 in Hrun.
      rewrite ?Hp in Hrun. lia. }
    rewrite Hp, Hvt'.
    replace (u * (62 * 62 ^ Z.of_nat (String.length t))
             + (JS.indexOf ALPHABET c * 62 ^ Z.of_nat (String.length t) + v))
      with ((u * 62 + JS.indexOf ALPHABET c) * 62 ^ Z.of_nat (String.length t) + v) by ring.
    cbn [String.length].
    replace (S (String.length t) + S fuel)%nat with (String.length t + S (S fuel))%nat by lia.
    rewrite (IH Ht (S fuel) (u * 62 + JS.indexOf ALPHABET c) acc v Hrun' Hv ltac:(lia)).
    rewrite hexToCustomAlphabet_loop_S.
    replace (Z.quot (u * 62 + JS.indexOf ALPHABET c) 62) with u by lia.
    replace (Z.rem (u * 62 + JS.indexOf ALPHABET c) 62) with (JS.indexOf ALPHABET c) by lia.
    destruct (0 <? u) eqn:E; [|lia].
    rewrite Hsym. reflexivity.
Qed.

(** Encoding the value of a canonical identifier writes that identifier. *)
Lemma hexToCustomAlphabet_loop_canonical (s : string) (v : Z) :
  all_chars in_alphabet s = true -> canonical_id s ->
  customAlphabetToHex_loop s 0 = Return v ->
  0 <= v /\ hexToCustomAlphabet_loop (loop_fuel v) v "" = Return s.
Proof.
  destruct s as [|c t]; [intros _ []|].
  cbn [all_chars canonical_id]. intros H Hcan Hdec.
  apply andb_true_iff in H as [Hc Ht].
  destruct (in_alphabet_index c Hc) as (Hi & Hsym & Hzero).
  destruct (customAlphabetToHex_loop_value t Ht) as (vt & Hvt & Hrun).
  cbn [customAlphabetToHex_loop] in Hdec.
  destruct (JS.indexOf ALPHABET c =? -1) eqn:E; [lia|].
  rewrite Hrun in Hdec. injection Hdec as Hdec. change base with 62 in Hdec.
  replace (0 * 62 + JS.indexOf ALPHABET c) with (JS.indexOf ALPHABET c) in Hdec by lia.
  set (n := Z.of_nat (String.length t)) in *.
  assert (H62 : 0 < 62 ^ n) by (apply Z.pow_pos_nonneg; lia).
  split; [nia|].
  destruct (Z.eq_dec (JS.indexOf ALPHABET c) 0) as [E0|E0].
  - destruct Hcan as [Hcan| ->]; [now specialize (Hzero E0)|].
    cbn in n. subst n. rewrite E0 in Hdec. cbn in Hvt.
    assert (Hv0 : v = 0) by lia. rewrite Hv0, (Hzero E0). reflexivity.
  - assert (Hpos : 0 < JS.indexOf ALPHABET c) by lia.
    assert (Hge : 62 ^ n <= v) by nia.
    assert (Hlog : n <= Z.log2 v).
    { apply Z.log2_le_pow2; [lia|].
      apply Z.le_trans with (62 ^ n); [apply Z.pow_le_mono_l; lia | exact Hge]. }
    unfold loop_fuel.
    replace (S (Z.to_nat (Z.log2 v)))
      with (String.length t + S (Z.to_nat (Z.log2 v) - String.length t))%nat by lia.
    rewrite <- Hdec. unfold n.
    rewrite (hexToCustomAlphabet_loop_peel t Ht _ (JS.indexOf ALPHABET c) "" vt Hrun Hvt Hpos).
    rewrite hexToCustomAlphabet_loop_S.
    replace (Z.quot (JS.indexOf ALPHABET c) 62) with 0 by lia.
    replace (Z.rem (JS.indexOf ALPHABET c) 62) with (JS.indexOf ALPHABET c) by lia.
    cbn [Z.ltb Z.compare]. rewrite Hsym, str_app_nil_r. reflexivity.
Qed.

Lemma parse_hex_none (h : string) :
  all_chars hex_char h = false -> forall acc, JS.parse_hex acc h = None.
Proof.
  induction h as [|c h IH]; cbn [all_chars JS.parse_hex]; [discriminate|].
  unfold hex_char at 1. intros H acc.
  destruct (JS.hex_value c); cbn [andb] in H; [now apply IH | reflexivity].
Qed.

(** An encoding never starts with the zero symbol, unless it is ["a"]. *)
Lemma encoding_canonical (a : string) (v : Z) :
  all_chars in_alphabet a = true -> a <> "" ->
  customAlphabetToHex_loop a 0 = Return v ->
  62 ^ (Z.of_nat (String.length a) - 1) <= Z.max v 1 ->
  canonical_id a.
Proof.
  destruct a as [|c t]; [congruence|].
  cbn [all_chars canonical_id String.length]. intros H _ Hdec Hmin.
  apply andb_true_iff in H as [Hc Ht].
  destruct (Ascii.ascii_dec c "a") as [->|Hne]; [|now left].
  right.
  destruct (customAlphabetToHex_loop_value t Ht) as (vt & Hvt & Hrun).
  cbn [customAlphabetToHex_loop] in Hdec.
  change (JS.indexOf ALPHABET "a") with 0 in Hdec. cbn [Z.eqb] in Hdec.
  rewrite Hrun in Hdec. injection Hdec as Hdec.
  replace (Z.of_nat (S (String.length t)) - 1) with (Z.of_nat (String.length t)) in Hmin by lia.
  destruct t as [|c' t']; [reflexivity|].
  exfalso. cbn [String.length] in *.
  assert (62 <= 62 ^ Z.of_nat (S (String.length t'))).
  { rewrite Nat2Z.inj_succ, Z.pow_succ_r by lia.
    assert (0 < 62 ^ Z.of_nat (String.length t')) by (apply Z.pow_pos_nonneg; lia). lia. }
  change base with 62 in Hdec. lia.
Qed.

Lemma decode_zero_symbols (k : nat) (s : string) :
  customAlphabetToHex_loop (zero_symbols k ++ s) 0 = customAlphabetToHex_loop s 0.
Proof. induction k as [|k IH]; cbn [zero_symbols append]; [reflexivity | exact IH]. Qed.

Lemma zero_symbols_length (k : nat) (s : string) :
  JS.length (zero_symbols k ++ s) = Z.of_nat k + JS.length s.
Proof.
  unfold JS.length. rewrite str_length_app. 
  assert (H : String.length (zero_symbols k) = k) by (induction k; cbn; congruence).
  rewrite H. lia.
Qed.

Lemma prefix_get (p : string) :
  forall s,
    String.prefix p s = true
    <-> forall j, (j < String.length p)%nat -> String.get j p = String.get j s.
Proof.
  induction p as [|a p IH]; intros s; destruct s as [|b s]; cbn [String.prefix String.length].
  - split; [intros _ j Hj; lia | reflexivity].
  - split; [intros _ j Hj; lia | reflexivity].
  - split; [discriminate|]. intros H. specialize (H 0%nat ltac:(lia)). discriminate H.
  - destruct (ascii_dec a b) as [->|Hne].
    + rewrite IH. split.
      * intros H [|j] Hj; [reflexivity|]. cbn. apply H. lia.
      * intros H j Hj. apply (H (S j)). lia.
    + split; [discriminate|]. intros H. specialize (H 0%nat ltac:(lia)).
      cbn in H. congruence.
Qed.

Lemma byte_hex_value (b : byte) (acc : Z) (rest : string) :
  JS.parse_hex acc (JS.byte_hex b ++ rest)
  = JS.parse_hex (acc * 256 + Z.of_N (Byte.to_N b)) rest.
Proof.
  unfold JS.byte_hex. pose proof (Byte.to_N_bounded b) as Hb.
  set (n := Z.of_N (Byte.to_N b)) in *.
  assert (Hn : 0 <= n < 256) by lia.
  destruct (quot_rem_radix 16 n ltac:(lia) ltac:(lia)) as (Hr & Hq & Hsplit).
  destruct (hex_digit_value (Z.quot n 16) ltac:(lia)) as (Hq16 & _).
  destruct (hex_digit_value (Z.rem n 16) Hr) as (Hr16 & _).
  cbn [append JS.parse_hex]. rewrite Hq16, Hr16. f_equal. lia.
Qed.

Lemma bytes_hex_value (bytes : list byte) :
  forall acc,
    JS.parse_hex acc (bytes_hex bytes)
    = Some (fold_left (fun acc b => acc * 256 + Z.of_N (Byte.to_N b)) bytes acc).
Proof.
  induction bytes as [|b bytes IH]; intros acc; [reflexivity|].
  cbn [bytes_hex fold_right fold_left]. fold (bytes_hex bytes).
  now rewrite byte_hex_value, IH.
Qed.

(** The budget of hex digits fits the requested length, and misses it by
    less than two symbols. *)
Lemma hex_budget_fits (n : Z) :
  1 <= n <= 54 ->
  16 ^ calculateHexLength n <= 62 ^ n
  /\ 62 ^ (n - 2) <= 16 ^ (calculateHexLength n - 1).
Proof.
  intros Hn.
  pose (P := fun n => (n <? 1)
                      || ((16 ^ calculateHexLength n <=? 62 ^ n)
                          && (62 ^ (n - 2) <=? 16 ^ (calculateHexLength n - 1)))).
  assert (HP : P n = true) by (apply (below_forallb P 55); [vm_compute; reflexivity | lia]).
  unfold P in HP. apply orb_true_iff in HP as [HP|HP]; [lia|].
  apply andb_true_iff in HP as [H1 H2]. split; [now apply Z.leb_le | now apply Z.leb_le].
Qed.

(** A run of [createId] with everything it goes through. *)
Lemma createId_trace
    (digest : list byte -> list byte) (random : oracle) (SALT : string)
    (n : Z) (salt : option string) (pos : nat) :
  digest_160 digest -> 1 <= n <= 54 ->
  rerolls_end random pos (token_bytes n) ->
  exists m id l v,
    (forall fuel,
        createId digest random SALT fuel
          (Some {| approximateLength := Some n; create_salt := salt |}) pos
        = if (m <=? fuel)%nat then Return (id, position l) else Diverge)
    /\ (forall fuel,
          createId_locals digest random fuel n (default SALT salt) pos
          = if (m <=? fuel)%nat then Return l else Diverge)
    /\ created digest n (default SALT salt) l
    /\ hexToCustomAlphabet (hexId l) = Return id
    /\ customAlphabetToHex id = Return (hexId l)
    /\ all_chars in_alphabet id = true /\ id <> ""
    /\ hex_denotes (hexId l) v
    /\ customAlphabetToHex_loop id 0 = Return v
    /\ 62 ^ (Z.of_nat (String.length id) - 1) <= Z.max v 1.
Proof.
  intros Hsha Hn Hend.
  destruct (createId_locals_spec digest random n (default SALT salt) pos Hn Hend)
    as (m & l & Hrun & Hl).
  destruct (created_hexId digest n _ l Hsha Hn Hl) as (Hlen & Hlow & Hlead & Hne & _).
  destruct (parse_hex_value (hexId l) (lower_hex_any _ Hlow)) as (v & Hden & Hv & _).
  destruct (hexToCustomAlphabet_value (hexId l) v Hne Hden ltac:(lia))
    as (id & Hid & Hidne & Hal & Hdec & Hmin).
  exists m, id, l, v.
  split; [|split; [exact Hrun|]; split; [exact Hl|]; split; [exact Hid|];
           split; [|repeat split; trivial]].
  - intros fuel. unfold createId. cbn [default approximateLength create_salt].
    rewrite Hrun. destruct (m <=? fuel)%nat; [|reflexivity].
    cbn [bind]. rewrite Hid. reflexivity.
  - rewrite (customAlphabetToHex_of_value id v Hidne Hdec). f_equal.
    rewrite (toString16_canonical (hexId l) v Hlow Hden).
    now apply canonical_hex_no_leading_zero.
Qed.

(** The position of the source after [generateRandomHexToken]. *)
Lemma generateRandomHexToken_position (random : oracle) (n : Z) (pos : nat) :
  1 <= n <= 131072 ->
  rerolls_end random pos (Z.to_nat (JS.ceil_half n)) ->
  exists m token,
    (forall fuel,
        generateRandomHexToken random fuel n pos
        = if (m <=? fuel)%nat
          then Return (token, (pos + S m * Z.to_nat (JS.ceil_half n))%nat)
          else Diverge)
    /\ first_below_16 (draw random pos (Z.to_nat (JS.ceil_half n)) m) = false
    /\ (forall i, (i < m)%nat ->
          first_below_16 (draw random pos (Z.to_nat (JS.ceil_half n)) i) = true).
Proof.
  intros Hn [k Hk].
  pose proof (ceil_half_bounds n) as Hc.
  set (len := Z.to_nat (JS.ceil_half n)) in *.
  assert (Hq : Z.of_nat len <= 65536) by lia.
  destruct (reroll_finds random pos len Hq k 0 Hk) as (m & _ & Hok & Hmin & Hrun).
  cbn [Nat.add] in Hok, Hrun, Hmin.
  exists m, (JS.substring0 (bytes_hex (draw random pos len m)) n).
  split; [|split; trivial].
  intros fuel. unfold generateRandomHexToken.
  destruct (JS.ceil_half n <? 0) eqn:E; [lia|]. fold len.
  rewrite (getRandomValues_first random pos len Hq). cbn [bind]. rewrite Hrun.
  destruct (m <=? fuel)%nat; reflexivity.
Qed.

(** The rank of a symbol is its index in the alphabet. *)
Lemma indexOf_symbol_rank (c : ascii) :
  JS.indexOf ALPHABET c = match symbol_rank c with Some r => r | None => -1 end.
Proof.
  destruct c as [b0 b1 b2 b3 b4 b5 b6 b7].
  destruct b0, b1, b2, b3, b4, b5, b6, b7; vm_compute; reflexivity.
Qed.

(** The decoding loop computes the base-62 value of a string over the
    alphabet. *)
Lemma customAlphabetToHex_loop_id_value (s : string) :
  all_chars in_alphabet s = true ->
  exists v,
    id_value s = Some v
    /\ 0 <= v < 62 ^ Z.of_nat (String.length s)
    /\ forall d, customAlphabetToHex_loop s d
                 = Return (d * 62 ^ Z.of_nat (String.length s) + v).
Proof.
  induction s as [|c s IH]; cbn [all_chars id_value]; intros H.
  - exists 0. split; [reflexivity|]. split; [cbn; lia|]. intros d. cbn. f_equal. lia.
  - apply andb_true_iff in H as [Hc Hs].
    destruct (in_alphabet_index c Hc) as (Hi & _ & _).
    destruct (IH Hs) as (v & Hid & Hv & Hrun).
    pose proof (indexOf_symbol_rank c) as Hr.
    destruct (symbol_rank c) as [r|]; [|lia]. rewrite Hid.
    exists (r * 62 ^ Z.of_nat (String.length s) + v). split; [reflexivity|].
    assert (Hp : 62 ^ Z.of_nat (String.length (String c s))
                 = 62 * 62 ^ Z.of_nat (String.length s)).
    { cbn [String.length]. rewrite Nat2Z.inj_succ, Z.pow_succ_r by lia. reflexivity. }
    rewrite Hp. split; [nia|].
    intros d. cbn [customAlphabetToHex_loop].
    destruct (JS.indexOf ALPHABET c =? -1) eqn:E; [lia|].
    rewrite Hrun, Hr. change base with 62. f_equal. ring.
Qed.

Lemma parse_hex_some (h : string) (acc v : Z) :
  JS.parse_hex acc h = Some v -> any_hex h.
Proof.
  intros H. unfold any_hex. destruct (all_chars hex_char h) eqn:E; [reflexivity|].
  rewrite (parse_hex_none h E acc) in H. discriminate H.
Qed.

(** White space after the digits is not seen by the encoder. *)
Lemma hexToCustomAlphabet_white_space (digits ws : string) :
  digits <> "" -> any_hex digits -> white_space ws ->
  hexToCustomAlphabet (digits ++ ws) = hexToCustomAlphabet digits.
Proof.
  intros Hne Hhex Hws.
  destruct (parse_hex_value digits Hhex) as (v & Hden & _).
  assert (Hb : JS.BigInt_0x (digits ++ ws) = JS.BigInt_0x digits).
  { unfold JS.BigInt_0x. now rewrite (trim_end_app digits ws Hws). }
  unfold hexToCustomAlphabet. rewrite Hb.
  destruct digits as [|c d]; [congruence | reflexivity].
Qed.

(* ================================================================= *)
(** ** The codec, beyond its round trip *)

(** X1.  [customAlphabetToHex] fails exactly on the strings that hold a
    symbol outside the alphabet, with the message naming the first such
    symbol; on the empty string it returns the empty string; on any other
    string over the alphabet it returns the canonical lowercase
    hexadecimal writing (not empty, no leading zero unless it is ["0"])
    of the number the string writes in base 62, where a symbol counts
    its rank: 0 to 25 for [a-z], 26 to 51 for [A-Z], 52 to 61 for
    [0-9]. *)
Theorem customAlphabetToHex_outcome (s : string) :
  (forall c, first_outside s = Some c ->
     customAlphabetToHex s = Throw (Error ("Invalid character: " ++ String c "")))
  /\ (first_outside s = None -> s <> "" ->
      exists v h,
        id_value s = Some v
        /\ customAlphabetToHex s = Return h
        /\ 0 <= v < 62 ^ Z.of_nat (String.length s)
        /\ hex_denotes h v /\ lower_hex h /\ h <> "" /\ canonical_hex h = h)
  /\ (s = "" -> customAlphabetToHex s = Return "").
Proof.
  split; [|split].
  - intros c Hc. unfold customAlphabetToHex.
    destruct s as [|c0 s]; [discriminate Hc|]. cbn [JS.falsy].
    now rewrite (customAlphabetToHex_loop_outside _ c Hc).
  - intros Hnone Hne. apply first_outside_none in Hnone.
    destruct (customAlphabetToHex_loop_id_value s Hnone) as (v & Hid & Hv & Hrun).
    assert (Hdec : customAlphabetToHex_loop s 0 = Return v)
      by (rewrite Hrun; f_equal; lia).
    destruct (toString16_spec v ltac:(lia)) as (Hlow & Hne' & Hden & _).
    exists v, (JS.toString16 v).
    split; [exact Hid|].
    split; [now apply customAlphabetToHex_of_value|].
    split; [exact Hv|]. split; [exact Hden|].
    split; [exact Hlow|]. split; [exact Hne'|].
    symmetry. now apply toString16_canonical.
  - intros ->. reflexivity.
Qed.

Lemma customAlphabetToHex_outcome_witness :
  first_outside "ab@c#" = Some "@"%char
  /\ customAlphabetToHex "ab@c#" = Throw (Error "Invalid character: @")
  /\ first_outside "eh" = None /\ "eh" <> ""
  /\ id_value "eh" = Some 255
  /\ exists h, customAlphabetToHex "eh" = Return h /\ hex_denotes h 255
               /\ canonical_hex h = h.
Proof.
  assert (H1 : first_outside "ab@c#" = Some "@"%char) by reflexivity.
  assert (H2 : first_outside "eh" = None) by reflexivity.
  assert (H3 : "eh" <> "") by discriminate.
  assert (H4 : id_value "eh" = Some 255) by reflexivity.
  split; [exact H1|]. split.
  - exact (proj1 (customAlphabetToHex_outcome "ab@c#") "@"%char H1).
  - split; [exact H2|]. split; [exact H3|]. split; [exact H4|].
    destruct (proj1 (proj2 (customAlphabetToHex_outcome "eh")) H2 H3)
      as (v & h & V & A & _ & B & _ & _ & C).
    assert (Hv : v = 255) by congruence. rewrite Hv in B.
    exists h. split; [exact A|]. split; [exact B | exact C].
Defined.

(** X2.  [hexToCustomAlphabet] on a non-empty string returns exactly when
    the string is one or more hexadecimal digits, of either case,
    followed by white space or by nothing (white space that [BigInt]
    skips); every other string makes it throw a [SyntaxError].  What it
    returns writes the value of the digits in base 62: a non-empty
    string over the alphabet, canonical (the zero symbol ['a'] is in
    front only of ["a"] itself), with the least number of symbols for
    the value. *)
Theorem hexToCustomAlphabet_outcome (h : string) :
  h <> "" ->
  (forall digits ws,
      h = digits ++ ws -> digits <> "" -> any_hex digits -> white_space ws ->
      exists a v,
        hexToCustomAlphabet h = Return a /\ hex_denotes digits v
        /\ id_value a = Some v
        /\ a <> "" /\ all_chars in_alphabet a = true /\ canonical_id a
        /\ 62 ^ (Z.of_nat (String.length a) - 1) <= Z.max v 1
        /\ v < 62 ^ Z.of_nat (String.length a))
  /\ ((forall digits ws,
         h = digits ++ ws -> any_hex digits -> white_space ws -> digits = "") ->
      hexToCustomAlphabet h = Throw SyntaxError).
Proof.
  intros Hne. split.
  - intros digits ws -> Hdne Hhex Hws.
    rewrite (hexToCustomAlphabet_white_space digits ws Hdne Hhex Hws).
    destruct (parse_hex_value digits Hhex) as (v & Hden & Hv & _).
    destruct (hexToCustomAlphabet_value digits v Hdne Hden ltac:(lia))
      as (a & Ha & Hane & Hal & Hdec & Hmin).
    destruct (customAlphabetToHex_loop_id_value a Hal) as (v' & Hid & Hv' & Hrun).
    rewrite Hrun in Hdec. injection Hdec as Hdec.
    assert (Hvv : v' = v) by lia. subst v'.
    exists a, v. repeat split; trivial; [|lia].
    apply (encoding_canonical a v Hal Hane); [|exact Hmin].
    rewrite Hrun. reflexivity.
  - intros Hnone. unfold hexToCustomAlphabet.
    destruct h as [|c0 h0]; [congruence|]. cbn [JS.falsy].
    destruct (trim_end_split (String c0 h0)) as (ws & Hsplit & Hws).
    unfold JS.BigInt_0x.
    destruct (JS.trim_end (String c0 h0)) as [|c r] eqn:E; [reflexivity|].
    destruct (JS.parse_hex 0 (String c r)) as [v|] eqn:Ep; [|reflexivity].
    apply parse_hex_some in Ep.
    discriminate (Hnone (String c r) ws Hsplit Ep Hws).
Qed.

Lemma hexToCustomAlphabet_outcome_witness :
  "fF  " <> "" /\ "fF  " = "fF" ++ "  " /\ any_hex "fF" /\ white_space "  "
  /\ (exists a, hexToCustomAlphabet "fF  " = Return a /\ id_value a = Some 255
                /\ canonical_id a)
  /\ " ff" <> "" /\ hexToCustomAlphabet " ff" = Throw SyntaxError.
Proof.
  assert (H1 : "fF  " <> "") by discriminate.
  assert (H2 : "fF  " = "fF" ++ "  ") by reflexivity.
  assert (H3 : "fF" <> "") by discriminate.
  assert (H4 : any_hex "fF") by reflexivity.
  assert (H5 : white_space "  ") by reflexivity.
  assert (H6 : " ff" <> "") by discriminate.
  assert (H7 : forall digits ws,
             " ff" = digits ++ ws -> any_hex digits -> white_space ws -> digits = "").
  { intros [|c d] ws E Hd _; [reflexivity|].
    cbn [append] in E. injection E as <- _. vm_compute in Hd. discriminate Hd. }
  split; [exact H1|]. split; [exact H2|]. split; [exact H4|]. split; [exact H5|]. split.
  - destruct (proj1 (hexToCustomAlphabet_outcome "fF  " H1) "fF" "  " H2 H3 H4 H5)
      as (a & v & A & B & C & _ & _ & D & _).
    assert (Hv : v = 255) by (vm_compute in B; congruence). rewrite Hv in C.
    exists a. split; [exact A|]. split; [exact C | exact D].
  - split; [exact H6|].
    exact (proj2 (hexToCustomAlphabet_outcome " ff" H6) H7).
Defined.

(** X3.  Decoding then encoding: on a canonical identifier over the
    alphabet, [hexToCustomAlphabet(customAlphabetToHex(s))] is [s]; and
    zero symbols ['a'] put in front of a non-empty identifier do not
    change what it decodes to, so the round trip removes them. *)
Theorem decode_encode_round_trip (s : string) (k : nat) :
  all_chars in_alphabet s = true -> canonical_id s ->
  exists h,
    customAlphabetToHex s = Return h /\ hexToCustomAlphabet h = Return s
    /\ customAlphabetToHex (zero_symbols k ++ s) = Return h.
Proof.
  intros Hal Hcan.
  assert (Hne : s <> "") by (destruct s; [destruct Hcan | discriminate]).
  destruct (customAlphabetToHex_loop_value s Hal) as (v & Hv & Hrun).
  assert (Hdec : customAlphabetToHex_loop s 0 = Return v)
    by (rewrite Hrun; f_equal; lia).
  destruct (hexToCustomAlphabet_loop_canonical s v Hal Hcan Hdec) as (Hv0 & Henc).
  destruct (toString16_spec v Hv0) as (_ & Hne' & Hden & _).
  exists (JS.toString16 v). split; [now apply customAlphabetToHex_of_value|]. split.
  - unfold hexToCustomAlphabet. rewrite (BigInt_0x_digits _ v Hne' Hden).
    destruct (JS.toString16 v) as [|c r] eqn:E; [congruence|]. exact Henc.
  - apply customAlphabetToHex_of_value.
    + destruct k; [exact Hne | discriminate].
    + now rewrite decode_zero_symbols.
Qed.

Lemma decode_encode_round_trip_witness :
  all_chars in_alphabet "19UcZlEmt" = true /\ canonical_id "19UcZlEmt"
  /\ exists h,
      customAlphabetToHex "19UcZlEmt" = Return h
      /\ hexToCustomAlphabet h = Return "19UcZlEmt"
      /\ customAlphabetToHex "aaa19UcZlEmt" = Return h.
Proof.
  assert (H1 : all_chars in_alphabet "19UcZlEmt" = true) by reflexivity.
  assert (H2 : canonical_id "19UcZlEmt") by (left; discriminate).
  split; [exact H1|]. split; [exact H2|].
  exact (decode_encode_round_trip "19UcZlEmt" 3 H1 H2).
Defined.

(* ================================================================= *)
(** ** What [verifyId] accepts *)

Lemma verifyId_body_true (digest : list byte -> list byte) (id salt : string) :
  verifyId_body digest id salt = Return true
  <-> id <> "" /\ JS.length id <= 54
      /\ exists hexId,
          customAlphabetToHex id = Return hexId
          /\ 2 <= JS.length hexId
          /\ forall j, (2 * j + 1 < String.length hexId)%nat ->
               String.get (2 * j + 1) hexId
               = String.get j (sha1 digest (salt ++ fst (split hexId))).
Proof.
  unfold verifyId_body, MAX_ID_LENGTH.
  assert (Hpre : forall hexId,
             String.prefix (pick false hexId) (sha1 digest (salt ++ pick true hexId)) = true
             <-> forall j, (2 * j + 1 < String.length hexId)%nat ->
                   String.get (2 * j + 1) hexId
                   = String.get j (sha1 digest (salt ++ pick true hexId))).
  { intros hexId. rewrite prefix_get. destruct (pick_length hexId) as [_ Hl].
    split; intros H j Hj.
    - rewrite <- (proj2 (pick_get hexId j)). apply H. lia.
    - rewrite (proj2 (pick_get hexId j)). apply H. lia. }
  split.
  - intros H.
    destruct id as [|c id]; [discriminate H|]. cbn [JS.falsy orb] in H.
    destruct (JS.length (String c id) >? 54) eqn:E; [discriminate H|].
    split; [discriminate|]. split; [lia|].
    destruct (customAlphabetToHex (String c id)) as [hexId| e |]; cbn [bind try_catch] in H;
      try discriminate H.
    exists hexId. split; [reflexivity|].
    rewrite split_pick in H |- *. cbn [fst].
    destruct (pick_length hexId) as [_ Hl].
    destruct (JS.length (pick false hexId) =? 0) eqn:E0; cbn [try_catch] in H;
      [discriminate H|].
    injection H as H. unfold JS.startsWith in H.
    split; [unfold JS.length in *; lia|]. now apply Hpre.
  - intros (Hne & Hlen & hexId & Hhex & Hl2 & Hget).
    destruct id as [|c id]; [congruence|]. cbn [JS.falsy orb].
    destruct (JS.length (String c id) >? 54) eqn:E; [lia|].
    rewrite Hhex. cbn [bind]. rewrite split_pick in Hget |- *. cbn [fst] in Hget.
    destruct (pick_length hexId) as [_ Hl].
    destruct (JS.length (pick false hexId) =? 0) eqn:E0;
      [unfold JS.length in *; lia|].
    cbn [try_catch]. unfold JS.startsWith. f_equal. now apply Hpre.
Qed.



(** X5.  Zero symbols in front do not matter to [verifyId]: when [id] is
    not empty and the padded string still has at most 54 symbols,
    [verifyId] gives the same answer on ['a'...'a' + id] as on [id]. *)
Theorem verifyId_ignores_leading_zero_symbols
    (digest : list byte -> list byte) (SALT id : string) (k : nat)
    (options : VerifyOptions) :
  id <> "" -> JS.length (zero_symbols k ++ id) <= 54 ->
  verifyId digest SALT (zero_symbols k ++ id) (Some options)
  = verifyId digest SALT id (Some options)
  /\ forall o, verifyId_defaulted digest SALT (zero_symbols k ++ id) o
               = verifyId_defaulted digest SALT id o.
Proof.
  intros Hne Hlen.
  assert (Hbody : forall salt,
             verifyId_body digest (zero_symbols k ++ id) salt
             = verifyId_body digest id salt).
  { intros salt. unfold verifyId_body, MAX_ID_LENGTH.
    rewrite zero_symbols_length in Hlen.
    assert (Hdec : customAlphabetToHex (zero_symbols k ++ id) = customAlphabetToHex id).
    { unfold customAlphabetToHex. rewrite decode_zero_symbols.
      destruct id as [|c id]; [congruence|].
      destruct k; reflexivity. }
    rewrite Hdec.
    assert (E1 : JS.falsy (zero_symbols k ++ id) = false)
      by (destruct k; [destruct id; [congruence | reflexivity] | reflexivity]).
    assert (E2 : JS.falsy id = false) by (destruct id; [congruence | reflexivity]).
    rewrite E1, E2. cbn [orb].
    destruct (JS.length (zero_symbols k ++ id) >? 54) eqn:E3;
      [rewrite zero_symbols_length in E3; lia|].
    destruct (JS.length id >? 54) eqn:E4; [lia | reflexivity]. }
  split; [apply Hbody | intros o; apply Hbody].
Qed.

Lemma verifyId_ignores_leading_zero_symbols_witness :
  "19UcZlEmt" <> "" /\ JS.length (zero_symbols 2 ++ "19UcZlEmt") <= 54
  /\ Legitid.verifyId SHA1.digest "aa19UcZlEmt" (Some {| verify_salt := None |})
     = Legitid.verifyId SHA1.digest "19UcZlEmt" (Some {| verify_salt := None |}).
Proof.
  assert (H1 : "19UcZlEmt" <> "") by discriminate.
  assert (H2 : JS.length (zero_symbols 2 ++ "19UcZlEmt") <= 54) by (vm_compute; discriminate).
  split; [exact H1|]. split; [exact H2|].
  exact (proj1 (verifyId_ignores_leading_zero_symbols SHA1.digest Legitid.SALT
                  "19UcZlEmt" 2 {| verify_salt := None |} H1 H2)).
Defined.

(** X6.  For every salt, some identifier of a single symbol is accepted:
    it is one of the sixteen symbols of ranks 16 to 31 (['q'] to ['F']),
    the one that decodes to the digit [1] followed by the first digit of
    [sha1(salt + "1")]. *)
Theorem verifyId_accepts_a_single_symbol
    (digest : list byte -> list byte) (SALT : string) (options : VerifyOptions) :
  digest_160 digest ->
  exists c,
    16 <= JS.indexOf ALPHABET c < 32
    /\ verifyId digest SALT (String c "") (Some options) = Return true
    /\ verifyId_defaulted digest SALT (String c "") (Some options) = Return true.
Proof.
  intros Hsha. set (salt := default SALT options.(verify_salt)).
  destruct (sha1_hex digest Hsha (salt ++ "1")) as [Hlen Hlow].
  destruct (sha1 digest (salt ++ "1")) as [|c0 rest] eqn:ED; [discriminate Hlen|].
  unfold lower_hex in Hlow. cbn [all_chars] in Hlow.
  apply andb_true_iff in Hlow as [Hc0 _].
  destruct (lower_hex_char_value c0 Hc0) as (d & Hd & Hdr & _ & _).
  destruct (alphabet_symbol (16 + d) ltac:(lia)) as (c & Hsym & Hidx).
  assert (Hhex : customAlphabetToHex (String c "") = Return (String "1" (String c0 ""))).
  { assert (Hdec : customAlphabetToHex_loop (String c "") 0 = Return (16 + d)).
    { cbn [customAlphabetToHex_loop]. rewrite Hidx.
      destruct (16 + d =? -1) eqn:E; [lia|]. f_equal. }
    rewrite (customAlphabetToHex_of_value (String c "") (16 + d) ltac:(discriminate) Hdec).
    f_equal. apply toString16_no_leading_zero.
    - unfold lower_hex. cbn [all_chars]. now rewrite Hc0.
    - discriminate.
    - unfold hex_denotes. cbn [JS.parse_hex]. rewrite Hd.
      change (JS.hex_value "1") with (Some 1). cbv iota beta. f_equal. }
  assert (Hbody : verifyId_body digest (String c "") salt = Return true).
  { apply verifyId_body_true. split; [discriminate|]. split; [cbn; lia|].
    exists (String "1" (String c0 "")). split; [exact Hhex|]. split; [cbn; lia|].
    intros j Hj. cbn [String.length] in Hj. assert (j = 0%nat) by lia. subst j.
    change (fst (split (String "1" (String c0 "")))) with "1".
    rewrite ED. reflexivity. }
  exists c. split; [lia|]. split; exact Hbody.
Qed.

Lemma verifyId_accepts_a_single_symbol_witness :
  digest_160 SHA1.digest
  /\ exists c,
      16 <= JS.indexOf ALPHABET c < 32
      /\ Legitid.verifyId SHA1.digest (String c "") (Some {| verify_salt := None |})
         = Return true.
Proof.
  split; [exact SHA1_digest_160|].
  destruct (verifyId_accepts_a_single_symbol SHA1.digest Legitid.SALT
              {| verify_salt := None |} SHA1_digest_160) as (c & A & B & _).
  exists c. split; [exact A | exact B].
Defined.

(** X7.  [verifyId] answers: with the options supplied, and in the second
    copy also without them, it returns a boolean for every string, never
    throws and never loops; the answer is [false] on the empty string, on
    more than 54 symbols and on any symbol outside the alphabet. *)
Theorem verifyId_always_answers
    (digest : list byte -> list byte) (SALT id : string) (options : VerifyOptions) :
  (exists b,
      verifyId digest SALT id (Some options) = Return b
      /\ (id = "" \/ JS.length id > 54 \/ all_chars in_alphabet id = false -> b = false))
  /\ forall o,
      exists b,
        verifyId_defaulted digest SALT id o = Return b
        /\ (id = "" \/ JS.length id > 54 \/ all_chars in_alphabet id = false -> b = false).
Proof.
  split; [|intros o]; apply verifyId_body_total.
Qed.

Lemma verifyId_always_answers_witness :
  ("" = "" \/ JS.length "" > 54 \/ all_chars in_alphabet "" = false)
  /\ exists b, Legid.verifyId SHA1.digest "" None = Return b /\ b = false.
Proof.
  assert (H : "" = "" \/ JS.length "" > 54 \/ all_chars in_alphabet "" = false)
    by (left; reflexivity).
  split; [exact H|].
  destruct (proj2 (verifyId_always_answers SHA1.digest Legid.SALT ""
                     {| verify_salt := None |}) None) as (b & A & B).
  exists b. split; [exact A | exact (B H)].
Defined.

Example verifyId_single_symbol :
  Legitid.verifyId SHA1.digest "y" (Some {| verify_salt := None |}) = Return true
  /\ Legid.verifyId SHA1.digest "x" None = Return true.
Proof. split; vm_compute; reflexivity. Qed.

(* ================================================================= *)
(** ** What [createId] returns *)

(** The identifier of a valid [approximateLength] [n] has [n] or [n - 1]
    symbols. *)
Lemma identifier_length_bounds
    (digest : list byte -> list byte) (random : oracle) (SALT : string)
    (n : Z) (salt : option string) (pos : nat) :
  digest_160 digest -> 1 <= n <= 54 ->
  rerolls_end random pos (token_bytes n) ->
  exists m id pos',
    (forall fuel, (m <= fuel)%nat ->
        createId digest random SALT fuel
          (Some {| approximateLength := Some n; create_salt := salt |}) pos
        = Return (id, pos'))
    /\ all_chars in_alphabet id = true /\ canonical_id id
    /\ n - 1 <= JS.length id <= n /\ 1 <= JS.length id.
Proof.
  intros Hsha Hn Hend.
  destruct (createId_trace digest random SALT n salt pos Hsha Hn Hend)
    as (m & id & l & v & Hrun & _ & Hl & Hid & _ & Hal & Hne & Hden & Hdec & Hmin).
  destruct (created_hexId digest n _ l Hsha Hn Hl) as (Hlen & Hlow & Hlead & Hhne & _).
  destruct Hl as (Hhl & _).
  destruct (hex_budget_fits n Hn) as [Hfit1 Hfit2]. rewrite <- Hhl in Hfit1, Hfit2.
  destruct (customAlphabetToHex_loop_value id Hal) as (v' & Hv' & Hrun').
  rewrite Hrun' in Hdec. injection Hdec as Hdec.
  assert (Hvid : v < 62 ^ Z.of_nat (String.length id)) by lia.
  assert (Hvhex : 16 ^ (hexLength l - 1) <= v < 16 ^ hexLength l).
  { destruct (hexId l) as [|c rest] eqn:E; [congruence|].
    destruct (hex_denotes_cons c rest v Hlow Hden)
      as (d & vs & _ & Hdr & _ & Hd0 & _ & _ & Hvs & ->).
    assert (Hd : 1 <= d) by (destruct (Z.eq_dec d 0); [exfalso; auto | lia]).
    unfold JS.length in Hlen. cbn [String.length] in Hlen.
    replace (hexLength l - 1) with (Z.of_nat (String.length rest)) by lia.
    replace (hexLength l) with (Z.succ (Z.of_nat (String.length rest))) by lia.
    rewrite Z.pow_succ_r by lia. nia. }
  assert (Hlen1 : (1 <= String.length id)%nat) by (destruct id; [congruence | cbn; lia]).
  assert (Hpos : 1 <= v).
  { destruct (calculateHexLength_range n Hn) as [Hrange _]. rewrite <- Hhl in Hrange.
    assert (0 < 16 ^ (hexLength l - 1)) by (apply Z.pow_pos_nonneg; lia). lia. }
  assert (Hup : Z.of_nat (String.length id) - 1 < n).
  { apply (Z.pow_lt_mono_r_iff 62); lia. }
  assert (Hlow' : n - 2 < Z.of_nat (String.length id)).
  { apply (Z.pow_lt_mono_r_iff 62); lia. }
  exists m, id, (position l). unfold JS.length.
  split; [intros fuel Hfuel; enough_fuel Hrun Hfuel|].
  split; [exact Hal|]. split; [|lia].
  apply (encoding_canonical id v Hal Hne); [|exact Hmin].
  rewrite Hrun'. f_equal. lia.
Qed.

(** X8.  Length of an identifier: for every [approximateLength] [n] from
    1 to 54, the identifier [createId] returns is a canonical string over
    the alphabet of [n] or [n - 1] symbols (never more than asked, and
    never empty). *)
Theorem createId_identifier_length
    (digest : list byte -> list byte) (random : oracle) (SALT : string)
    (n : Z) (salt : option string) (pos : nat) :
  digest_160 digest -> 1 <= n <= 54 ->
  rerolls_end random pos (token_bytes n) ->
  exists m id pos',
    (forall fuel, (m <= fuel)%nat ->
        createId digest random SALT fuel
          (Some {| approximateLength := Some n; create_salt := salt |}) pos
        = Return (id, pos'))
    /\ all_chars in_alphabet id = true /\ canonical_id id
    /\ n - 1 <= JS.length id <= n /\ 1 <= JS.length id.
Proof. apply identifier_length_bounds. Qed.

Lemma createId_identifier_length_witness :
  digest_160 SHA1.digest /\ 1 <= 10 <= 54
  /\ rerolls_end sample_source 0 (token_bytes 10)
  /\ exists m id pos',
      (forall fuel, (m <= fuel)%nat ->
          createId SHA1.digest sample_source "legitid:" fuel
            (Some {| approximateLength := Some 10; create_salt := None |}) 0
          = Return (id, pos'))
      /\ 10 - 1 <= JS.length id <= 10.
Proof.
  assert (H1 : 1 <= 10 <= 54) by lia.
  assert (H2 : rerolls_end sample_source 0 (token_bytes 10))
    by (exists 1%nat; vm_compute; reflexivity).
  split; [exact SHA1_digest_160|]. split; [exact H1|]. split; [exact H2|].
  destruct (createId_identifier_length SHA1.digest sample_source "legitid:" 10 None 0
              SHA1_digest_160 H1 H2) as (m & id & pos' & A & _ & _ & B & _).
  exists m, id, pos'. split; [exact A | exact B].
Defined.

(** X9.  An identifier gives its token back: for every valid
    [approximateLength], the identifier [createId] returns decodes to the
    interleaved hex string of the call, which has exactly [hexLength]
    lowercase digits (nothing was read past the token or the digest), and
    splitting it yields the whole random token and the first
    floor(hexLength / 2) digits of [sha1(salt + token)]. *)
Theorem identifier_reveals_token
    (digest : list byte -> list byte) (random : oracle) (SALT : string)
    (n : Z) (salt : option string) (pos : nat) :
  digest_160 digest -> 1 <= n <= 54 ->
  rerolls_end random pos (token_bytes n) ->
  exists m id l,
    (forall fuel, (m <= fuel)%nat ->
        createId digest random SALT fuel
          (Some {| approximateLength := Some n; create_salt := salt |}) pos
        = Return (id, position l))
    /\ (forall fuel, (m <= fuel)%nat ->
          createId_locals digest random fuel n (default SALT salt) pos = Return l)
    /\ customAlphabetToHex id = Return (hexId l)
    /\ JS.length (hexId l) = hexLength l /\ lower_hex (hexId l)
    /\ split (hexId l)
       = (hexToken l,
          JS.take (Z.to_nat (hexLength l / 2))
            (sha1 digest (default SALT salt ++ hexToken l))).
Proof.
  intros Hsha Hn Hend.
  destruct (createId_trace digest random SALT n salt pos Hsha Hn Hend)
    as (m & id & l & v & Hrun & Hloc & Hl & _ & Hback & _).
  destruct (created_hexId digest n _ l Hsha Hn Hl) as (Hlen & Hlow & _ & _ & Hsplit).
  destruct Hl as (_ & _ & _ & _ & _ & Hhash & _). rewrite Hhash in Hsplit.
  exists m, id, l.
  split; [intros fuel Hfuel; enough_fuel Hrun Hfuel|].
  split; [intros fuel Hfuel; enough_fuel Hloc Hfuel|].
  repeat split; trivial.
Qed.

Lemma identifier_reveals_token_witness :
  digest_160 SHA1.digest /\ 1 <= 10 <= 54
  /\ rerolls_end sample_source 0 (token_bytes 10)
  /\ exists m id l,
      (forall fuel, (m <= fuel)%nat ->
          createId SHA1.digest sample_source "legitid:" fuel
            (Some {| approximateLength := Some 10; create_salt := None |}) 0
          = Return (id, position l))
      /\ customAlphabetToHex id = Return (hexId l)
      /\ fst (split (hexId l)) = hexToken l.
Proof.
  assert (H1 : 1 <= 10 <= 54) by lia.
  assert (H2 : rerolls_end sample_source 0 (token_bytes 10))
    by (exists 1%nat; vm_compute; reflexivity).
  split; [exact SHA1_digest_160|]. split; [exact H1|]. split; [exact H2|].
  destruct (identifier_reveals_token SHA1.digest sample_source "legitid:" 10 None 0
              SHA1_digest_160 H1 H2) as (m & id & l & A & _ & B & _ & _ & C).
  exists m, id, l. split; [exact A|]. split; [exact B|]. now rewrite C.
Defined.

(** X10.  An identifier asked with [approximateLength = 1] is a single
    symbol that [verifyId] rejects under every salt: it holds one digit
    of the token and none of the digest. *)
Theorem single_symbol_identifier_rejected
    (digest : list byte -> list byte) (random : oracle) (SALT : string)
    (salt : option string) (pos : nat) :
  digest_160 digest ->
  rerolls_end random pos (token_bytes 1) ->
  exists m id pos',
    (forall fuel, (m <= fuel)%nat ->
        createId digest random SALT fuel
          (Some {| approximateLength := Some 1; create_salt := salt |}) pos
        = Return (id, pos'))
    /\ JS.length id = 1
    /\ (forall options, verifyId digest SALT id (Some options) = Return false)
    /\ (forall o, verifyId_defaulted digest SALT id o = Return false).
Proof.
  intros Hsha Hend.
  destruct (identifier_length_bounds digest random SALT 1 salt pos Hsha ltac:(lia) Hend)
    as (m' & id' & pos'' & Hrun' & _ & _ & Hlen & Hlen1).
  destruct (createId_trace digest random SALT 1 salt pos Hsha ltac:(lia) Hend)
    as (m & id & l & v & Hrun & _ & Hl & _ & Hback & _).
  assert (Hsame : id' = id).
  { specialize (Hrun' (Nat.max m m') ltac:(lia)). rewrite Hrun in Hrun'.
    assert (E : (m <=? Nat.max m m')%nat = true) by (apply Nat.leb_le; lia).
    rewrite E in Hrun'. now injection Hrun' as -> _. }
  subst id'.
  destruct (created_hexId digest 1 _ l Hsha ltac:(lia) Hl) as (Hhlen & _).
  destruct Hl as (Hhl & _). change (calculateHexLength 1) with 1 in Hhl.
  assert (Hno : snd (split (hexId l)) = "") by (apply split_no_digest; lia).
  exists m, id, (position l).
  split; [intros fuel Hfuel; enough_fuel Hrun Hfuel|].
  split; [lia|].
  split; [intros options | intros o];
    apply (proj2 (verifyId_body_rejects digest id _) (hexId l) Hback Hno).
Qed.

Lemma single_symbol_identifier_rejected_witness :
  digest_160 SHA1.digest /\ rerolls_end sample_source 0 (token_bytes 1)
  /\ exists m id pos',
      (forall fuel, (m <= fuel)%nat ->
          createId SHA1.digest sample_source "legitid:" fuel
            (Some {| approximateLength := Some 1; create_salt := None |}) 0
          = Return (id, pos'))
      /\ Legitid.verifyId SHA1.digest id (Some {| verify_salt := None |}) = Return false.
Proof.
  assert (H2 : rerolls_end sample_source 0 (token_bytes 1))
    by (exists 1%nat; vm_compute; reflexivity).
  split; [exact SHA1_digest_160|]. split; [exact H2|].
  destruct (single_symbol_identifier_rejected SHA1.digest sample_source "legitid:" None 0
              SHA1_digest_160 H2) as (m & id & pos' & A & _ & B & _).
  exists m, id, pos'. split; [exact A | exact (B {| verify_salt := None |})].
Defined.

(* ================================================================= *)
(** ** Bytes, digests and the random source *)

(** X11.  [arrayBufferToHex] writes two lowercase hexadecimal digits for
    each byte, most significant byte first: the result has twice as many
    characters as the buffer has bytes and denotes the big-endian value
    of the buffer; so [sha1], on a digest of 20 bytes, returns 40
    lowercase digits that denote the digest. *)
Theorem arrayBufferToHex_rendering (digest : list byte -> list byte)
    (buffer : list byte) (text : string) :
  String.length (arrayBufferToHex buffer) = (2 * List.length buffer)%nat
  /\ lower_hex (arrayBufferToHex buffer)
  /\ hex_denotes (arrayBufferToHex buffer) (be_value buffer)
  /\ (digest_160 digest ->
      String.length (sha1 digest text) = 40%nat
      /\ lower_hex (sha1 digest text)
      /\ hex_denotes (sha1 digest text) (be_value (digest (JS.TextEncoder_encode text)))).
Proof.
  assert (H : forall bs,
             String.length (arrayBufferToHex bs) = (2 * List.length bs)%nat
             /\ lower_hex (arrayBufferToHex bs)
             /\ hex_denotes (arrayBufferToHex bs) (be_value bs)).
  { intros bs. unfold arrayBufferToHex.
    destruct (bytes_hex_spec bs) as (Hlen & Hlow & _).
    split; [exact Hlen|]. split; [exact Hlow|]. apply bytes_hex_value. }
  destruct (H buffer) as (A & B & C).
  split; [exact A|]. split; [exact B|]. split; [exact C|].
  intros Hsha. unfold sha1.
  destruct (H (digest (JS.TextEncoder_encode text))) as (A' & B' & C').
  rewrite Hsha in A'. split; [exact A'|]. split; [exact B' | exact C'].
Qed.

Lemma arrayBufferToHex_rendering_witness :
  digest_160 SHA1.digest
  /\ arrayBufferToHex [x00; x0a; xff] = "000aff"
  /\ hex_denotes "000aff" (be_value [x00; x0a; xff])
  /\ String.length (sha1 SHA1.digest "abc") = 40%nat.
Proof.
  split; [exact SHA1_digest_160|]. split; [reflexivity|].
  destruct (arrayBufferToHex_rendering SHA1.digest [x00; x0a; xff] "abc")
    as (_ & _ & A & B).
  split; [exact A|]. exact (proj1 (B SHA1_digest_160)).
Defined.

(** X12.  [generateRandomHexToken] takes whole buffers from the random
    source: for a length from 1 to 131072 (a buffer within the 65536
    bytes that [crypto.getRandomValues] fills in one call), when it
    returns after [m] rejected buffers (whose first byte was below 16),
    the source has moved by [(m + 1) * ceil(length / 2)] bytes, and with
    fewer than [m] re-rolls granted it is still in its loop. *)
Theorem generateRandomHexToken_consumption
    (random : oracle) (length : Z) (pos : nat) :
  1 <= length <= 131072 ->
  rerolls_end random pos (Z.to_nat (JS.ceil_half length)) ->
  exists m token,
    (forall fuel,
        generateRandomHexToken random fuel length pos
        = if (m <=? fuel)%nat
          then Return (token, (pos + (m + 1) * Z.to_nat (JS.ceil_half length))%nat)
          else Diverge)
    /\ first_below_16 (draw random pos (Z.to_nat (JS.ceil_half length)) m) = false
    /\ (forall i, (i < m)%nat ->
          first_below_16 (draw random pos (Z.to_nat (JS.ceil_half length)) i) = true).
Proof.
  intros Hn Hend.
  destruct (generateRandomHexToken_position random length pos Hn Hend)
    as (m & token & Hrun & Hok & Hmin).
  exists m, token. split; [|split; trivial].
  intros fuel. rewrite Hrun. now replace (m + 1)%nat with (S m) by lia.
Qed.

Lemma generateRandomHexToken_consumption_witness :
  1 <= 7 <= 131072 /\ rerolls_end sample_source 0 (Z.to_nat (JS.ceil_half 7))
  /\ generateRandomHexToken sample_source 1 7 0 = Return ("2e77c00", 8%nat)
  /\ exists m token,
      forall fuel,
        generateRandomHexToken sample_source fuel 7 0
        = if (m <=? fuel)%nat
          then Return (token, (0 + (m + 1) * Z.to_nat (JS.ceil_half 7))%nat)
          else Diverge.
Proof.
  assert (H1 : 1 <= 7 <= 131072) by lia.
  assert (H2 : rerolls_end sample_source 0 (Z.to_nat (JS.ceil_half 7)))
    by (exists 1%nat; vm_compute; reflexivity).
  split; [exact H1|]. split; [exact H2|]. split; [vm_compute; reflexivity|].
  destruct (generateRandomHexToken_consumption sample_source 7 0 H1 H2)
    as (m & token & A & _).
  exists m, token. exact A.
Defined.

(** X13.  [generateRandomHexToken] at the edge: for a length of 0 or -1
    the byte array is empty, the test [array[0] < 16] is false at once,
    and the empty string is returned for every source without a byte
    taken; for a length of -2 or less the array length is negative and
    a [RangeError] is thrown. *)
Theorem generateRandomHexToken_edge
    (random : oracle) (fuel : nat) (length : Z) (pos : nat) :
  (-1 <= length <= 0 ->
   generateRandomHexToken random fuel length pos = Return ("", pos))
  /\ (length <= -2 ->
      generateRandomHexToken random fuel length pos = Throw RangeError).
Proof.
  unfold generateRandomHexToken. split; intros H.
  - assert (Hc : JS.ceil_half length = 0) by (unfold JS.ceil_half; lia).
    rewrite Hc. cbn [Z.ltb Z.compare Z.to_nat repeat].
    unfold getRandomValues. cbn [List.length Z.of_nat Z.ltb Z.compare seq map bind].
    rewrite reroll_eq. cbn [first_below_16 bind bytes_hex fold_right].
    rewrite Nat.add_0_r. unfold JS.substring0. destruct (Z.to_nat length); reflexivity.
  - assert (Hc : JS.ceil_half length < 0) by (unfold JS.ceil_half; lia).
    apply Z.ltb_lt in Hc. now rewrite Hc.
Qed.

Lemma generateRandomHexToken_edge_witness :
  -1 <= 0 <= 0 /\ -3 <= -2
  /\ generateRandomHexToken sample_source 0 0 5 = Return ("", 5%nat)
  /\ generateRandomHexToken sample_source 0 (-3) 5 = Throw RangeError.
Proof.
  assert (H1 : -1 <= 0 <= 0) by lia.
  assert (H2 : -3 <= -2) by lia.
  split; [exact H1|]. split; [exact H2|]. split.
  - exact (proj1 (generateRandomHexToken_edge sample_source 0 0 5) H1).
  - exact (proj2 (generateRandomHexToken_edge sample_source 0 (-3) 5) H2).
Defined.

(* ================================================================= *)
(** ** Generation and verification together *)

Lemma encode_decode_exact (h a : string) :
  lower_hex h -> h <> "" -> no_leading_zero h ->
  hexToCustomAlphabet h = Return a -> customAlphabetToHex a = Return h.
Proof.
  intros Hlow Hne Hlead Ha.
  destruct (codec_round_trip_canonical h (lower_hex_any h Hlow) Hne)
    as (a' & Ha' & _ & _ & Hback).
  rewrite Ha in Ha'. injection Ha' as <-.
  now rewrite Hback, lowercase_lower, canonical_hex_no_leading_zero.
Qed.

(** The local variables of a [createId] that returned. *)
Lemma created_of_return
    (digest : list byte -> list byte) (random : oracle)
    (fuel : nat) (n : Z) (salt : string) (pos : nat) (l : CreateLocals) :
  1 <= n <= 54 ->
  createId_locals digest random fuel n salt pos = Return l ->
  created digest n salt l /\ rerolls_end random pos (token_bytes n).
Proof.
  intros Hn Hret.
  assert (Hend : rerolls_end random pos (token_bytes n)).
  { destruct (calculateHexLength_range n Hn) as [Hrange _].
    apply generateRandomHexToken_terminates.
    - rewrite shiftr_1. pose proof (ceil_half_bounds ((calculateHexLength n + 1) / 2)). lia.
    - exists fuel. intros Hd. unfold createId_locals, MAX_ID_LENGTH in Hret.
      destruct (n <=? 0) eqn:E1; [lia|]. destruct (n >? 54) eqn:E2; [lia|].
      rewrite Hd in Hret. discriminate Hret. }
  split; [|exact Hend].
  destruct (createId_locals_spec digest random n salt pos Hn Hend) as (m & l' & Hrun & Hl).
  rewrite Hrun in Hret. destruct (m <=? fuel)%nat; [|discriminate Hret].
  now injection Hret as <-.
Qed.

Lemma take_substring (s : string) : forall k, JS.take k s = String.substring 0 k s.
Proof.
  induction s as [|c s IH]; intros [|k]; cbn [JS.take String.substring]; trivial.
  now rewrite IH.
Qed.

Lemma startsWith_take (D D' : string) (k : nat) :
  (k <= String.length D)%nat ->
  JS.startsWith D' (JS.take k D) = String.eqb (JS.take k D') (JS.take k D).
Proof.
  intros Hk. unfold JS.startsWith.
  assert (Hl : String.length (JS.take k D) = k) by (rewrite take_length; lia).
  destruct (String.eqb (JS.take k D') (JS.take k D)) eqn:E.
  - apply String.eqb_eq in E. apply prefix_correct.
    now rewrite Hl, <- take_substring.
  - destruct (String.prefix (JS.take k D) D') eqn:P; [|reflexivity].
    apply prefix_correct in P. rewrite Hl, <- take_substring in P.
    apply String.eqb_neq in E. congruence.
Qed.

(** X14.  The documented use with no argument at all: [createId()]
    returns an identifier of 9 or 10 symbols (the default length is 10,
    the default salt is used), and [verifyId(id)] of the second copy
    accepts it. *)
Theorem createId_verifyId_defaults
    (digest : list byte -> list byte) (random : oracle) (SALT : string) (pos : nat) :
  digest_160 digest ->
  rerolls_end random pos (token_bytes DEFAULT_ID_LENGTH) ->
  exists m id pos',
    (forall fuel, (m <= fuel)%nat ->
        createId digest random SALT fuel None pos = Return (id, pos'))
    /\ 9 <= JS.length id <= 10
    /\ verifyId_defaulted digest SALT id None = Return true
    /\ verifyId digest SALT id (Some {| verify_salt := None |}) = Return true.
Proof.
  intros Hsha Hend.
  destruct (identifier_length_bounds digest random SALT 10 None pos Hsha ltac:(lia) Hend)
    as (m' & id' & pos'' & Hrun' & _ & _ & Hlen & _).
  destruct (created_identifier_verifies digest random SALT 10 None pos Hsha ltac:(lia) Hend)
    as (m & id & pos' & Hrun & _ & _ & _ & Hver).
  assert (Hsame : id' = id).
  { specialize (Hrun' (Nat.max m m') ltac:(lia)). rewrite Hrun in Hrun'.
    assert (E : (m <=? Nat.max m m')%nat = true) by (apply Nat.leb_le; lia).
    rewrite E in Hrun'. now injection Hrun' as -> _. }
  subst id'.
  exists m, id, pos'. split; [|split; [lia | split; exact Hver]].
  intros fuel Hfuel.
  change (createId digest random SALT fuel None pos)
    with (createId digest random SALT fuel
            (Some {| approximateLength := Some 10; create_salt := None |}) pos).
  enough_fuel Hrun Hfuel.
Qed.

Lemma createId_verifyId_defaults_witness :
  digest_160 SHA1.digest
  /\ rerolls_end sample_source 0 (token_bytes DEFAULT_ID_LENGTH)
  /\ exists m id pos',
      (forall fuel, (m <= fuel)%nat ->
          Legid.createId SHA1.digest sample_source fuel None 0 = Return (id, pos'))
      /\ Legid.verifyId SHA1.digest id None = Return true.
Proof.
  assert (H2 : rerolls_end sample_source 0 (token_bytes DEFAULT_ID_LENGTH))
    by (exists 1%nat; vm_compute; reflexivity).
  split; [exact SHA1_digest_160|]. split; [exact H2|].
  destruct (createId_verifyId_defaults SHA1.digest sample_source Legid.SALT 0
              SHA1_digest_160 H2) as (m & id & pos' & A & _ & B & _).
  exists m, id, pos'. split; [exact A | exact B].
Defined.

(** X15.  Two identifiers made for the same length and salt are equal
    exactly when their random tokens are equal, whatever the random
    sources were: an identifier repeats only if its token does. *)
Theorem createId_identifier_injective
    (digest : list byte -> list byte) (SALT : string)
    (random1 random2 : oracle) (fuel1 fuel2 : nat) (n : Z) (salt : option string)
    (pos1 pos2 : nat) (l1 l2 : CreateLocals) (id1 id2 : string) (p1 p2 : nat) :
  digest_160 digest -> 1 <= n <= 54 ->
  createId_locals digest random1 fuel1 n (default SALT salt) pos1 = Return l1 ->
  createId_locals digest random2 fuel2 n (default SALT salt) pos2 = Return l2 ->
  createId digest random1 SALT fuel1
    (Some {| approximateLength := Some n; create_salt := salt |}) pos1 = Return (id1, p1) ->
  createId digest random2 SALT fuel2
    (Some {| approximateLength := Some n; create_salt := salt |}) pos2 = Return (id2, p2) ->
  id1 = id2 <-> hexToken l1 = hexToken l2.
Proof.
  intros Hsha Hn Hl1 Hl2 Hc1 Hc2.
  destruct (created_of_return digest random1 fuel1 n _ pos1 l1 Hn Hl1) as [Hcr1 _].
  destruct (created_of_return digest random2 fuel2 n _ pos2 l2 Hn Hl2) as [Hcr2 _].
  destruct (created_hexId digest n _ l1 Hsha Hn Hcr1) as (_ & Hlow1 & Hlead1 & Hne1 & Hsp1).
  destruct (created_hexId digest n _ l2 Hsha Hn Hcr2) as (_ & Hlow2 & Hlead2 & Hne2 & Hsp2).
  unfold createId in Hc1, Hc2. cbn [default approximateLength create_salt] in Hc1, Hc2.
  rewrite Hl1 in Hc1. rewrite Hl2 in Hc2. cbn [bind] in Hc1, Hc2.
  destruct (hexToCustomAlphabet (hexId l1)) as [a1| |] eqn:E1; cbn [bind] in Hc1;
    try discriminate Hc1.
  destruct (hexToCustomAlphabet (hexId l2)) as [a2| |] eqn:E2; cbn [bind] in Hc2;
    try discriminate Hc2.
  injection Hc1 as -> _. injection Hc2 as -> _.
  pose proof (encode_decode_exact _ _ Hlow1 Hne1 Hlead1 E1) as B1.
  pose proof (encode_decode_exact _ _ Hlow2 Hne2 Hlead2 E2) as B2.
  split.
  - intros ->. rewrite B1 in B2. injection B2 as B2.
    rewrite B2 in Hsp1. rewrite Hsp1 in Hsp2. now injection Hsp2 as -> _.
  - intros Htok.
    destruct Hcr1 as (Hh1 & _ & _ & _ & _ & Hhash1 & Hid1).
    destruct Hcr2 as (Hh2 & _ & _ & _ & _ & Hhash2 & Hid2).
    assert (Hsame : hexId l1 = hexId l2).
    { rewrite Hid1, Hid2, Hhash1, Hhash2, Hh1, Hh2, Htok. reflexivity. }
    rewrite Hsame in E1. rewrite E1 in E2. now injection E2 as ->.
Qed.

Lemma createId_identifier_injective_witness :
  digest_160 SHA1.digest /\ 1 <= 2 <= 54
  /\ exists l1 l2 id1 id2 p1 p2,
      createId_locals SHA1.digest sample_source 1 2 "legitid:" 0 = Return l1
      /\ createId_locals SHA1.digest sample_source 0 2 "legitid:" 1 = Return l2
      /\ createId SHA1.digest sample_source "legitid:" 1
           (Some {| approximateLength := Some 2; create_salt := None |}) 0 = Return (id1, p1)
      /\ createId SHA1.digest sample_source "legitid:" 0
           (Some {| approximateLength := Some 2; create_salt := None |}) 1 = Return (id2, p2)
      /\ (id1 = id2 <-> hexToken l1 = hexToken l2).
Proof.
  assert (H1 : 1 <= 2 <= 54) by lia.
  split; [exact SHA1_digest_160|]. split; [exact H1|].
  eexists. eexists. eexists. eexists. eexists. eexists.
  assert (A : createId_locals SHA1.digest sample_source 1 2 "legitid:" 0 = Return _)
    by (vm_compute; reflexivity).
  assert (B : createId_locals SHA1.digest sample_source 0 2 "legitid:" 1 = Return _)
    by (vm_compute; reflexivity).
  assert (C : createId SHA1.digest sample_source "legitid:" 1
                (Some {| approximateLength := Some 2; create_salt := None |}) 0 = Return (_, _))
    by (vm_compute; reflexivity).
  assert (D : createId SHA1.digest sample_source "legitid:" 0
                (Some {| approximateLength := Some 2; create_salt := None |}) 1 = Return (_, _))
    by (vm_compute; reflexivity).
  split; [exact A|]. split; [exact B|]. split; [exact C|]. split; [exact D|].
  exact (createId_identifier_injective SHA1.digest "legitid:" sample_source sample_source
           1 0 2 None 0 1 _ _ _ _ _ _ SHA1_digest_160 H1 A B C D).
Defined.

(** X16.  Salt sensitivity, exactly: an identifier made with one salt is
    accepted under another salt if and only if the digests of the token
    under the two salts agree on their first floor(hexLength / 2) digits,
    the digits the identifier carries. *)
Theorem verifyId_under_another_salt
    (digest : list byte -> list byte) (random : oracle) (SALT : string)
    (n : Z) (salt : option string) (pos : nat) :
  digest_160 digest -> 2 <= n <= 54 ->
  rerolls_end random pos (token_bytes n) ->
  exists m id l,
    (forall fuel, (m <= fuel)%nat ->
        createId digest random SALT fuel
          (Some {| approximateLength := Some n; create_salt := salt |}) pos
        = Return (id, position l))
    /\ (forall fuel, (m <= fuel)%nat ->
          createId_locals digest random fuel n (default SALT salt) pos = Return l)
    /\ forall other,
         let k := Z.to_nat (hexLength l / 2) in
         verifyId digest SALT id (Some {| verify_salt := Some other |})
         = Return (String.eqb (JS.take k (sha1 digest (other ++ hexToken l)))
                     (JS.take k (sha1 digest (default SALT salt ++ hexToken l)))).
Proof.
  intros Hsha Hn Hend.
  destruct (createId_trace digest random SALT n salt pos Hsha ltac:(lia) Hend)
    as (m & id & l & v & Hrun & Hloc & Hl & _ & Hback & _ & Hne & _).
  destruct (created_identifier_verifies digest random SALT n salt pos Hsha ltac:(lia) Hend)
    as (m' & id' & pos' & Hrun' & _ & _ & Hlen & _).
  assert (Hsame : id' = id).
  { specialize (Hrun' (Nat.max m m')). rewrite Hrun in Hrun'.
    assert (E : (m <=? Nat.max m m')%nat = true) by (apply Nat.leb_le; lia).
    assert (E' : (m' <=? Nat.max m m')%nat = true) by (apply Nat.leb_le; lia).
    rewrite E, E' in Hrun'. now injection Hrun' as -> _. }
  subst id'.
  destruct (created_hexId digest n _ l Hsha ltac:(lia) Hl) as (_ & _ & _ & _ & Hsplit).
  destruct (calculateHexLength_range n ltac:(lia)) as [Hrange Hrange2].
  destruct Hl as (Hhl & _ & _ & _ & _ & Hhash & _). rewrite <- Hhl in Hrange, Hrange2.
  specialize (Hrange2 ltac:(lia)).
  exists m, id, l.
  split; [intros fuel Hfuel; enough_fuel Hrun Hfuel|].
  split; [intros fuel Hfuel; enough_fuel Hloc Hfuel|].
  intros other k. unfold verifyId. cbn [default verify_salt].
  unfold verifyId_body, MAX_ID_LENGTH.
  destruct id as [|c id]; [congruence|]. cbn [JS.falsy orb].
  destruct (JS.length (String c id) >? 54) eqn:E; [lia|].
  rewrite Hback. cbn [bind]. rewrite Hsplit. fold k. rewrite Hhash.
  destruct (sha1_hex digest Hsha (default SALT salt ++ hexToken l)) as [Hdl _].
  assert (Hk : (1 <= k <= 40)%nat) by (unfold k; lia).
  unfold JS.length at 1. rewrite take_length, Hdl.
  destruct (Z.of_nat (Nat.min k 40) =? 0) eqn:E0; [apply Z.eqb_eq in E0; lia|].
  cbn [try_catch]. f_equal. apply startsWith_take. lia.
Qed.

Lemma verifyId_under_another_salt_witness :
  digest_160 SHA1.digest /\ 2 <= 10 <= 54
  /\ rerolls_end sample_source 0 (token_bytes 10)
  /\ exists m id l,
      (forall fuel, (m <= fuel)%nat ->
          createId SHA1.digest sample_source "legitid:" fuel
            (Some {| approximateLength := Some 10; create_salt := None |}) 0
          = Return (id, position l))
      /\ forall other,
           verifyId SHA1.digest "legitid:" id (Some {| verify_salt := Some other |})
           = Return (String.eqb
                       (JS.take (Z.to_nat (hexLength l / 2))
                          (sha1 SHA1.digest (other ++ hexToken l)))
                       (JS.take (Z.to_nat (hexLength l / 2))
                          (sha1 SHA1.digest ("legitid:" ++ hexToken l)))).
Proof.
  assert (H1 : 2 <= 10 <= 54) by lia.
  assert (H2 : rerolls_end sample_source 0 (token_bytes 10))
    by (exists 1%nat; vm_compute; reflexivity).
  split; [exact SHA1_digest_160|]. split; [exact H1|]. split; [exact H2|].
  destruct (verifyId_under_another_salt SHA1.digest sample_source "legitid:" 10 None 0
              SHA1_digest_160 H1 H2) as (m & id & l & A & _ & B).
  exists m, id, l. split; [exact A | exact B].
Defined.

Example verifyId_other_salt :
  Legitid.verifyId SHA1.digest "19UcZlEmt" (Some {| verify_salt := Some "legid:" |})
  = Return false.
Proof. vm_compute. reflexivity. Qed.
